(** * MuSig2 key aggregation and signing sessions (btcec/schnorr/musig2)

    A shallow embedding of [keys.go] (key sorting, key-list fingerprint,
    aggregation coefficients, [AggregateKeys]) and of [context.go]
    ([NewContext] and the [Session] state machine), with the properties of
    the specification proved or refuted on it.

    The curve arithmetic, the tagged hash, the partial signer, the
    signature combiner and Go's [sort.Sort] are libraries the package calls;
    they are interfaces here ([Btcec], [GoSort], [Musig2Lib]) and every
    function of the package is defined over them. *)

From Stdlib Require Import ZArith Lia.
From Stdlib Require Strings.Byte Strings.String.
From stdpp Require Import base option list sorting strings gmap.

Local Open Scope Z_scope.

(** ** Go values *)

Abbreviation byte := Byte.byte.

(** A Go call either returns a value or panics (index out of range, nil
    pointer dereference). *)
Inductive outcome (A : Type) : Type :=
| Ret (a : A)
| Panic.
Arguments Ret {A} a.
Arguments Panic {A}.

(** The call returned normally, with a value. *)
Definition returns {A} (o : outcome A) : Prop := ∃ a, o = Ret a.

(** The error values of the package ([context.go], [var] block); any other
    error a called function returns is [ErrOther] with its text. *)
Inductive error : Type :=
| ErrSignerNotInKeySet
| ErrAlredyHaveAllNonces
| ErrAlredyHaveAllSigs
| ErrSigningContextReuse
| ErrFinalSigInvalid
| ErrCombinedNonceUnavailable
| ErrOther (text : string).

(** A Go result [(v, err)] of which one is nil. *)
Inductive result (A : Type) : Type :=
| Ok (a : A)
| Err (e : error).
Arguments Ok {A} a.
Arguments Err {A} e.

(** [bytes.Compare]: lexicographic comparison, -1, 0 or +1. *)
Fixpoint bytes_Compare (a b : list byte) : Z :=
  match a, b with
  | [], [] => 0
  | [], _ :: _ => -1
  | _ :: _, [] => 1
  | x :: a', y :: b' =>
      match N.compare (Byte.to_N x) (Byte.to_N y) with
      | Lt => -1
      | Gt => 1
      | Eq => bytes_Compare a' b'
      end
  end.

(** [bytes.Equal]. *)
Definition bytes_Equal (a b : list byte) : bool :=
  bool_decide (bytes_Compare a b = 0).

(** The builtin [copy(dst[off:], src)]: overwrites
    [min (len dst - off) (len src)] elements of [dst] from index [off]. *)
Definition copy_at (off : nat) (dst src : list byte) : list byte :=
  let n := Nat.min (length dst - off) (length src) in
  take off dst ++ take n src ++ drop (off + n) dst.

(** Indexing [s[i]] with a Go [int]: panics when out of range. *)
Definition index {A} (s : list A) (i : Z) : outcome A :=
  if bool_decide (0 ≤ i)
  then match s !! Z.to_nat i with Some x => Ret x | None => Panic end
  else Panic.

(** ** The libraries the package calls *)

(** [btcec] / [schnorr] / [chainhash]: keys, scalars, points, tagged hash. *)
Class Btcec := {
  PublicKey : Type;
  PrivateKey : Type;
  ModNScalar : Type;
  FieldVal : Type;
  JacobianPoint : Type;
  (** [privKey.PubKey()] *)
  PubKey : PrivateKey → PublicKey;
  (** [schnorr.SerializePubKey]: the 32-byte x-only serialization *)
  SerializePubKey : PublicKey → list byte;
  (** [schnorr.ParsePubKey]: the even-y key of an x-only serialization *)
  ParsePubKey : list byte → result PublicKey;
  (** [key.IsEqual other]: both coordinates are equal *)
  IsEqual : PublicKey → PublicKey → bool;
  (** [chainhash.TaggedHash tag msg] *)
  TaggedHash : list byte → list byte → list byte;
  (** [mu.SetInt], [mu.SetByteSlice] *)
  SetInt : Z → ModNScalar;
  SetByteSlice : list byte → ModNScalar;
  (** the zero value of [btcec.JacobianPoint] *)
  JacobianZero : JacobianPoint;
  (** [key.AsJacobian], [btcec.ScalarMultNonConst], [btcec.AddNonConst] *)
  AsJacobian : PublicKey → JacobianPoint;
  ScalarMultNonConst : ModNScalar → JacobianPoint → JacobianPoint;
  AddNonConst : JacobianPoint → JacobianPoint → JacobianPoint;
  (** [p.ToAffine()], the fields [p.X], [p.Y], [btcec.NewPublicKey] *)
  ToAffine : JacobianPoint → JacobianPoint;
  JX : JacobianPoint → FieldVal;
  JY : JacobianPoint → FieldVal;
  NewPublicKey : FieldVal → FieldVal → PublicKey;
}.

(** What the package relies on from the curve: Jacobian points represent
    group elements ([Jeq]: same element), addition is a commutative,
    associative operation on the elements, and the affine form of an
    element is unique. *)
Class BtcecLaws (B : Btcec) := {
  Jeq : JacobianPoint → JacobianPoint → Prop;
  Jeq_equiv : Equivalence Jeq;
  AddNonConst_proper : ∀ p p' q q',
    Jeq p p' → Jeq q q' → Jeq (AddNonConst p q) (AddNonConst p' q');
  AddNonConst_comm : ∀ p q, Jeq (AddNonConst p q) (AddNonConst q p);
  AddNonConst_assoc : ∀ p q r,
    Jeq (AddNonConst (AddNonConst p q) r) (AddNonConst p (AddNonConst q r));
  ToAffine_proper : ∀ p q, Jeq p q → ToAffine p = ToAffine q;
}.
#[export] Existing Instance Jeq_equiv.

Section keys.
Context {B : Btcec}.

(** ** keys.go *)

(** [KeyAggTagList], [KeyAggTagCoeff]. *)
Definition KeyAggTagList : list byte :=
  String.list_byte_of_string "KeyAgg list"%string.
Definition KeyAggTagCoeff : list byte :=
  String.list_byte_of_string "KeyAgg coefficient"%string.

(** [sortableKeys.Less], on the two elements compared. *)
Definition Less (ki kj : PublicKey) : bool :=
  bool_decide (bytes_Compare (SerializePubKey ki) (SerializePubKey kj) = -1).

(** [sort.IsSorted] over [sortableKeys]: no element is [Less] than the one
    before it. *)
Fixpoint IsSorted (s : list PublicKey) : bool :=
  match s with
  | [] => true
  | a :: t =>
      match t with
      | [] => true
      | b :: _ => negb (Less b a) && IsSorted t
      end
  end.

(** [sort.Sort] over [sortableKeys]: the elements of the slice after the
    call. It sorts by [Less] and swaps elements only. *)
Class GoSort := {
  sort_Sort : list PublicKey → list PublicKey;
  sort_Sort_sorted : ∀ s, IsSorted (sort_Sort s) = true;
  sort_Sort_perm : ∀ s, sort_Sort s ≡ₚ s;
}.
Context {GS : GoSort}.

(** A slice of keys is a reference to a backing array in the heap: the
    callee sees and changes the elements the caller holds. *)
Definition slice := positive.
Definition heap := gmap positive (list PublicKey).

(** The elements of slice [s]. *)
Definition elems (h : heap) (s : slice) : list PublicKey :=
  default [] (h !! s).

(** [sortKeys]: [sortableKeys(keys)] converts the slice header and shares
    the backing array; [sort.Sort] swaps its elements in place; the slice
    returned is the one received. *)
Definition sortKeys (h : heap) (keys : slice) : heap * slice :=
  let keySet := keys in
  if IsSorted (elems h keySet) then (h, keys)
  else (<[keySet := sort_Sort (elems h keySet)]> h, keySet).

(** [keyHashFingerprint]. *)
Definition keyHashFingerprint (h : heap) (keys : slice) (sort : bool)
  : heap * list byte :=
  let '(h, keys) := if sort then sortKeys h keys else (h, keys) in
  let keyBytes := concat (SerializePubKey <$> elems h keys) in
  (h, TaggedHash KeyAggTagList keyBytes).

(** [keyBytesEqual]. *)
Definition keyBytesEqual (a b : PublicKey) : bool :=
  bytes_Equal (SerializePubKey a) (SerializePubKey b).

(** The 64-byte buffer hashed for a coefficient. *)
Definition coefficientBytes (targetKey : PublicKey) (keysHash : list byte)
  : list byte :=
  copy_at 32 (copy_at 0 (replicate 64 Byte.x00) keysHash)
    (SerializePubKey targetKey).

(** The coefficient of the second branch of [aggregationCoefficient]. *)
Definition hashCoefficient (targetKey : PublicKey) (keysHash : list byte)
  : ModNScalar :=
  SetByteSlice (TaggedHash KeyAggTagCoeff (coefficientBytes targetKey keysHash)).

(** [aggregationCoefficient]. *)
Definition aggregationCoefficient (keySet : list PublicKey)
    (targetKey : PublicKey) (keysHash : list byte) (secondKeyIdx : Z)
  : outcome ModNScalar :=
  if bool_decide (secondKeyIdx ≠ -1) then
    match index keySet secondKeyIdx with
    | Panic => Panic
    | Ret k =>
        if keyBytesEqual k targetKey then Ret (SetInt 1)
        else Ret (hashCoefficient targetKey keysHash)
    end
  else Ret (hashCoefficient targetKey keysHash).

(** The loop of [secondUniqueKeyIndex], from index [i] on. *)
Fixpoint secondUniqueKeyIndex_from (first : PublicKey) (i : Z)
    (rest : list PublicKey) : Z :=
  match rest with
  | [] => -1
  | k :: rest' =>
      if negb (keyBytesEqual k first) then i
      else secondUniqueKeyIndex_from first (i + 1) rest'
  end.

(** [secondUniqueKeyIndex]. *)
Definition secondUniqueKeyIndex (keySet : list PublicKey) : Z :=
  match keySet with
  | [] => -1
  | first :: _ => secondUniqueKeyIndex_from first 0 keySet
  end.

(** [keyAggOption], [WithKeysHash], [WithUniqueKeyIndex],
    [defaultKeyAggOptions]. The slice [keyHash] and the pointer
    [uniqueKeyIndex] may be nil ([None]). *)
Record keyAggOption := {
  keyHash : option (list byte);
  uniqueKeyIndex : option Z;
}.
Definition KeyAggOption := keyAggOption → keyAggOption.
Definition WithKeysHash (kh : option (list byte)) : KeyAggOption :=
  λ o, {| keyHash := kh; uniqueKeyIndex := uniqueKeyIndex o |}.
Definition WithUniqueKeyIndex (idx : Z) : KeyAggOption :=
  λ o, {| keyHash := keyHash o; uniqueKeyIndex := Some idx |}.
Definition defaultKeyAggOptions : keyAggOption :=
  {| keyHash := None; uniqueKeyIndex := None |}.

(** The accumulation loop of [AggregateKeys] over the keys still to visit. *)
Fixpoint aggregateLoop (keys : list PublicKey) (keysHash : list byte)
    (idx : Z) (finalKeyJ : JacobianPoint) (todo : list PublicKey)
  : outcome JacobianPoint :=
  match todo with
  | [] => Ret finalKeyJ
  | key :: todo' =>
      let keyJ := AsJacobian key in
      match aggregationCoefficient keys key keysHash idx with
      | Panic => Panic
      | Ret a =>
          let tweakedKeyJ := ScalarMultNonConst a keyJ in
          aggregateLoop keys keysHash idx
            (AddNonConst finalKeyJ tweakedKeyJ) todo'
      end
  end.

(** [AggregateKeys]. *)
Definition AggregateKeys (h : heap) (keys : slice) (sort : bool)
    (keyOpts : list KeyAggOption) : heap * outcome PublicKey :=
  let opts := foldl (λ o option, option o) defaultKeyAggOptions keyOpts in
  let '(h, keys) := if sort then sortKeys h keys else (h, keys) in
  let '(h, kh) :=
    match keyHash opts with
    | None => keyHashFingerprint h keys sort
    | Some kh => (h, kh)
    end in
  let idx :=
    match uniqueKeyIndex opts with
    | None => secondUniqueKeyIndex (elems h keys)
    | Some idx => idx
    end in
  match aggregateLoop (elems h keys) kh idx JacobianZero (elems h keys) with
  | Panic => (h, Panic)
  | Ret finalKeyJ =>
      let finalKeyJ := ToAffine finalKeyJ in
      (h, Ret (NewPublicKey (JX finalKeyJ) (JY finalKeyJ)))
  end.

End keys.

(** ** context.go *)

(** The rest of the package ([nonces.go], [sign.go]) and the two functions
    of [keys.go] that [NewContext] calls with a signature other than the one
    above. *)
Class Musig2Lib (B : Btcec) := {
  KeyTweakDesc : Type;
  SecNonceT : Type;
  PartialSignature : Type;
  Signature : Type;
  SignOption : Type;
  CombineOption : Type;
  (** the field [R] of a [PartialSignature] *)
  sig_R : PartialSignature → PublicKey;
  (** [AggregateNonces] *)
  AggregateNonces : list (list byte) → result (list byte);
  (** [Sign], the partial signer *)
  Sign : SecNonceT → PrivateKey → list byte → list PublicKey → list byte →
         list SignOption → result PartialSignature;
  (** [WithTweaks], [WithTweakedCombine] *)
  WithTweaks : list KeyTweakDesc → SignOption;
  WithTweakedCombine :
    list byte → list PublicKey → list KeyTweakDesc → bool → CombineOption;
  (** [CombineSigs] *)
  CombineSigs :
    PublicKey → list PartialSignature → list CombineOption → Signature;
  (** [finalSig.Verify] *)
  Verify : Signature → list byte → PublicKey → bool;
  (** [secondUniqueKeyIndex(signers, shouldSort)] *)
  secondUniqueKeyIndexSort : heap → slice → bool → heap * Z;
  (** [AggregateKeys(signers, shouldSort, WithKeysHash(..),
      WithUniqueKeyIndex(..), WithKeyTweaks(..))], its first and last
      results *)
  AggregateKeysTweaked :
    heap → slice → bool → list byte → Z → list KeyTweakDesc →
    heap * result PublicKey;
}.

Section context.
Context {B : Btcec} {GS : GoSort} {L : Musig2Lib B}.

(** [Context]. *)
Record Context := {
  signingKey : PrivateKey;
  pubKey : PublicKey;
  keySet : slice;
  combinedKey : PublicKey;
  ctxUniqueKeyIndex : Z;
  keysHash : list byte;
  tweaks : list KeyTweakDesc;
  shouldSort : bool;
}.

(** [contextOptions], [ContextOption], [defaultContextOptions],
    [WithTweakedContext]. *)
Record contextOptions := { optTweaks : list KeyTweakDesc }.
Definition ContextOption := contextOptions → contextOptions.
Definition defaultContextOptions : contextOptions := {| optTweaks := [] |}.
Definition WithTweakedContext (tw : list KeyTweakDesc) : ContextOption :=
  λ _, {| optTweaks := tw |}.

(** The loop of [NewContext] that looks for the signing key. *)
Fixpoint keyFound (signers : list PublicKey) (pk : PublicKey) : bool :=
  match signers with
  | [] => false
  | key :: signers' => if IsEqual key pk then true else keyFound signers' pk
  end.

(** [NewContext]. *)
Definition NewContext (h : heap) (signingKey : PrivateKey) (signers : slice)
    (shouldSort : bool) (ctxOpts : list ContextOption)
  : heap * result Context :=
  let opts := foldl (λ o option, option o) defaultContextOptions ctxOpts in
  match ParsePubKey (SerializePubKey (PubKey signingKey)) with
  | Err err => (h, Err err)
  | Ok pubKey =>
      if negb (keyFound (elems h signers) pubKey)
      then (h, Err ErrSignerNotInKeySet)
      else
        let '(h, keysHash) := keyHashFingerprint h signers shouldSort in
        let '(h, uniqueKeyIndex) :=
          secondUniqueKeyIndexSort h signers shouldSort in
        match AggregateKeysTweaked h signers shouldSort keysHash
                uniqueKeyIndex (optTweaks opts) with
        | (h, Err err) => (h, Err err)
        | (h, Ok combinedKey) =>
            (h, Ok {| signingKey := signingKey;
                      pubKey := pubKey;
                      keySet := signers;
                      combinedKey := combinedKey;
                      ctxUniqueKeyIndex := uniqueKeyIndex;
                      keysHash := keysHash;
                      tweaks := optTweaks opts;
                      shouldSort := shouldSort |})
        end
  end.

(** [Nonces]. *)
Record Nonces := { SecNonce : SecNonceT; PubNonce : list byte }.

(** [Session]; a nil pointer field is [None]. *)
Record Session := {
  ctx : Context;
  localNonces : option Nonces;
  pubNonces : list (list byte);
  combinedNonce : option (list byte);
  msg : list byte;
  ourSig : option PartialSignature;
  sigs : list PartialSignature;
  finalSig : option Signature;
}.

(** Field assignments [s.f = v]. *)
Definition set_localNonces (v : option Nonces) (s : Session) : Session :=
  {| ctx := ctx s; localNonces := v; pubNonces := pubNonces s;
     combinedNonce := combinedNonce s; msg := msg s; ourSig := ourSig s;
     sigs := sigs s; finalSig := finalSig s |}.
Definition set_pubNonces (v : list (list byte)) (s : Session) : Session :=
  {| ctx := ctx s; localNonces := localNonces s; pubNonces := v;
     combinedNonce := combinedNonce s; msg := msg s; ourSig := ourSig s;
     sigs := sigs s; finalSig := finalSig s |}.
Definition set_combinedNonce (v : option (list byte)) (s : Session)
  : Session :=
  {| ctx := ctx s; localNonces := localNonces s; pubNonces := pubNonces s;
     combinedNonce := v; msg := msg s; ourSig := ourSig s;
     sigs := sigs s; finalSig := finalSig s |}.
Definition set_msg (v : list byte) (s : Session) : Session :=
  {| ctx := ctx s; localNonces := localNonces s; pubNonces := pubNonces s;
     combinedNonce := combinedNonce s; msg := v; ourSig := ourSig s;
     sigs := sigs s; finalSig := finalSig s |}.
Definition set_ourSig (v : option PartialSignature) (s : Session) : Session :=
  {| ctx := ctx s; localNonces := localNonces s; pubNonces := pubNonces s;
     combinedNonce := combinedNonce s; msg := msg s; ourSig := v;
     sigs := sigs s; finalSig := finalSig s |}.
Definition set_sigs (v : list PartialSignature) (s : Session) : Session :=
  {| ctx := ctx s; localNonces := localNonces s; pubNonces := pubNonces s;
     combinedNonce := combinedNonce s; msg := msg s; ourSig := ourSig s;
     sigs := v; finalSig := finalSig s |}.
Definition set_finalSig (v : option Signature) (s : Session) : Session :=
  {| ctx := ctx s; localNonces := localNonces s; pubNonces := pubNonces s;
     combinedNonce := combinedNonce s; msg := msg s; ourSig := ourSig s;
     sigs := sigs s; finalSig := v |}.

(** [len(s.ctx.keySet)]. *)
Definition numSigners (h : heap) (s : Session) : nat :=
  length (elems h (keySet (ctx s))).

(** [Context.NewSession]; [gen] is what [GenNonces()] returned. *)
Definition NewSession (c : Context) (gen : result Nonces) : result Session :=
  match gen with
  | Err err => Err err
  | Ok localNonces =>
      Ok {| ctx := c;
            localNonces := Some localNonces;
            pubNonces := [] ++ [PubNonce localNonces];
            combinedNonce := None;
            msg := replicate 32 Byte.x00;
            ourSig := None;
            sigs := [];
            finalSig := None |}
  end.

(** A method call leaves the session in a state and returns or panics. *)
Definition effect (A : Type) : Type := Session * outcome A.

(** [Session.PublicNonce]. *)
Definition PublicNonce (s : Session) : effect (list byte) :=
  match localNonces s with
  | None => (s, Panic)
  | Some localNonces => (s, Ret (PubNonce localNonces))
  end.

(** [Session.NumRegisteredNonces]. *)
Definition NumRegisteredNonces (s : Session) : effect nat :=
  (s, Ret (length (pubNonces s))).

(** [Session.RegisterPubNonce]. *)
Definition RegisterPubNonce (h : heap) (s : Session) (nonce : list byte)
  : effect (bool * option error) :=
  let haveAllNonces :=
    bool_decide (length (pubNonces s) = numSigners h s) in
  if haveAllNonces then (s, Ret (false, None))
  else
    let s := set_pubNonces (pubNonces s ++ [nonce]) s in
    let haveAllNonces :=
      bool_decide (length (pubNonces s) = numSigners h s) in
    if haveAllNonces then
      match AggregateNonces (pubNonces s) with
      | Err err => (s, Ret (false, Some err))
      | Ok combinedNonce =>
          (set_combinedNonce (Some combinedNonce) s,
           Ret (haveAllNonces, None))
      end
    else (s, Ret (haveAllNonces, None)).

(** [Session.Sign]. *)
Definition SessionSign (h : heap) (s : Session) (m : list byte)
    (signOpts : list SignOption) : effect (result PartialSignature) :=
  let s := set_msg m s in
  match localNonces s with
  | None => (s, Ret (Err ErrSigningContextReuse))
  | Some nonces =>
      match combinedNonce s with
      | None => (s, Ret (Err ErrCombinedNonceUnavailable))
      | Some combined =>
          let signOpts :=
            if bool_decide (length (tweaks (ctx s)) ≠ 0%nat)
            then signOpts ++ [WithTweaks (tweaks (ctx s))]
            else signOpts in
          let signed :=
            Sign (SecNonce nonces) (signingKey (ctx s)) combined
                 (elems h (keySet (ctx s))) m signOpts in
          let s := set_localNonces None s in
          match signed with
          | Err err => (s, Ret (Err err))
          | Ok partialSig =>
              let s := set_ourSig (Some partialSig) s in
              let s := set_sigs (sigs s ++ [partialSig]) s in
              (s, Ret (Ok partialSig))
          end
      end
  end.

(** [Session.CombineSig]. *)
Definition CombineSig (h : heap) (s : Session) (sig : PartialSignature)
  : effect (bool * option error) :=
  let haveAllSigs := bool_decide (length (sigs s) = numSigners h s) in
  if haveAllSigs then (s, Ret (false, Some ErrAlredyHaveAllSigs))
  else
    let s := set_sigs (sigs s ++ [sig]) s in
    let haveAllSigs := bool_decide (length (sigs s) = numSigners h s) in
    if haveAllSigs then
      let combineOpts :=
        if bool_decide (length (tweaks (ctx s)) ≠ 0%nat)
        then [] ++ [WithTweakedCombine (msg s) (elems h (keySet (ctx s)))
                      (tweaks (ctx s)) (shouldSort (ctx s))]
        else [] in
      match ourSig s with
      | None => (s, Panic)
      | Some our =>
          let final := CombineSigs (sig_R our) (sigs s) combineOpts in
          if negb (Verify final (msg s) (combinedKey (ctx s)))
          then (s, Ret (false, Some ErrFinalSigInvalid))
          else (set_finalSig (Some final) s, Ret (haveAllSigs, None))
      end
    else (s, Ret (haveAllSigs, None)).

(** [Session.FinalSig]. *)
Definition FinalSig (s : Session) : effect (option Signature) :=
  (s, Ret (finalSig s)).

(** A call at the public interface of a session, and the session it
    leaves behind. *)
Inductive call : Type :=
| CallPublicNonce
| CallNumRegisteredNonces
| CallRegisterPubNonce (nonce : list byte)
| CallSign (m : list byte) (signOpts : list SignOption)
| CallCombineSig (sig : PartialSignature)
| CallFinalSig.

Definition after (h : heap) (s : Session) (c : call) : Session :=
  match c with
  | CallPublicNonce => fst (PublicNonce s)
  | CallNumRegisteredNonces => fst (NumRegisteredNonces s)
  | CallRegisterPubNonce nonce => fst (RegisterPubNonce h s nonce)
  | CallSign m signOpts => fst (SessionSign h s m signOpts)
  | CallCombineSig sig => fst (CombineSig h s sig)
  | CallFinalSig => fst (FinalSig s)
  end.

(** The session after a sequence of calls. *)
Definition run (h : heap) (s : Session) (calls : list call) : Session :=
  foldl (after h) s calls.

(** Whether a call panics in a given session. *)
Definition panics (h : heap) (s : Session) (c : call) : bool :=
  match c with
  | CallPublicNonce =>
      match snd (PublicNonce s) with Panic => true | _ => false end
  | CallNumRegisteredNonces =>
      match snd (NumRegisteredNonces s) with Panic => true | _ => false end
  | CallRegisterPubNonce nonce =>
      match snd (RegisterPubNonce h s nonce) with
      | Panic => true | _ => false end
  | CallSign m signOpts =>
      match snd (SessionSign h s m signOpts) with
      | Panic => true | _ => false end
  | CallCombineSig sig =>
      match snd (CombineSig h s sig) with Panic => true | _ => false end
  | CallFinalSig =>
      match snd (FinalSig s) with Panic => true | _ => false end
  end.

End context.

(** ** silentpayments.go (package psbt) *)

(** [ErrInvalidKeyData] and [ErrInvalidPsbtFormat], the two errors of the
    package the file returns. *)
Inductive psbt_error : Type :=
| ErrInvalidKeyData
| ErrInvalidPsbtFormat.

(** A result [(v, err)] of the package, of which one is nil. *)
Inductive parsed (A : Type) : Type :=
| Parsed (a : A)
| Failed (e : psbt_error).
Arguments Parsed {A} a.
Arguments Failed {A} e.

(** [sha256.Size], [secp.PubKeyBytesLenCompressed]. *)
Definition sha256_Size : nat := 32.
Definition PubKeyBytesLenCompressed : nat := 33.

(** [uint32Size], a constant of the package declared outside this file: the
    size of a [uint32] in bytes. *)
Definition uint32Size : nat := 4.

(** [outPointSize]. *)
Definition outPointSize : nat := sha256_Size + uint32Size.

(** The value of a byte, and the conversion [byte(v)]. *)
Definition byte_val (b : byte) : Z := Z.of_N (Byte.to_N b).
Definition to_byte (v : Z) : byte :=
  default Byte.x00 (Byte.of_N (Z.to_N (Z.land v 255))).

(** [binary.LittleEndian.Uint32]: panics on fewer than four bytes. *)
Definition LittleEndian_Uint32 (b : list byte) : outcome Z :=
  match b with
  | b0 :: b1 :: b2 :: b3 :: _ =>
      Ret (Z.lor (byte_val b0)
             (Z.lor (Z.shiftl (byte_val b1) 8)
                (Z.lor (Z.shiftl (byte_val b2) 16)
                   (Z.shiftl (byte_val b3) 24))))
  | _ => Panic
  end.

(** [binary.LittleEndian.PutUint32] into a four-byte array. *)
Definition LittleEndian_PutUint32 (v : Z) : list byte :=
  [to_byte v; to_byte (Z.shiftr v 8); to_byte (Z.shiftr v 16);
   to_byte (Z.shiftr v 24)].

(** The slice expression [s[lo:hi]], checked against the length of [s]
    (Go checks against its capacity, which is no less). *)
Definition subslice (s : list byte) (lo hi : nat) : outcome (list byte) :=
  if bool_decide (lo ≤ hi ∧ hi ≤ length s)%nat
  then Ret (take (hi - lo) (drop lo s))
  else Panic.

(** The values [i] takes in [for i := 0; i < n; i += step]. *)
Definition loop_indices (n step : nat) : list nat :=
  (λ k, k * step)%nat <$> seq 0 ((n + step - 1) / step).

(** A loop body run over the values of its index; a panic ends it. *)
Fixpoint for_each {S : Type} (body : S → nat → outcome S) (st : S)
    (indices : list nat) : outcome S :=
  match indices with
  | [] => Ret st
  | i :: indices' =>
      match body st i with
      | Panic => Panic
      | Ret st' => for_each body st' indices'
      end
  end.

(** [wire.OutPoint]: a 32-byte hash and a [uint32] index. *)
Record OutPoint := { Hash : list byte; Index : Z }.

(** The zero value of [wire.OutPoint]. *)
Definition zeroOutPoint : OutPoint :=
  {| Hash := replicate 32 Byte.x00; Index := 0 |}.

(** [SilentPaymentShare]. *)
Record SilentPaymentShare := {
  share_ScanKey : list byte;
  share_OutPoints : list OutPoint;
  share_Share : list byte;
}.

(** [SilentPaymentDLEQ]. *)
Record SilentPaymentDLEQ := {
  dleq_ScanKey : list byte;
  dleq_OutPoints : list OutPoint;
  dleq_Proof : list byte;
}.

(** [SilentPaymentInfo]. *)
Record SilentPaymentInfo := {
  info_ScanKey : list byte;
  info_SpendKey : list byte;
}.

(** The body of the loop of [ReadSilentPaymentShare] and of
    [ReadSilentPaymentDLEQ] (the two are the same): it fills
    [OutPoints[i / outPointSize]] from [keyData[i:]]. *)
Definition readOutPoint (keyData : list byte) (outPoints : list OutPoint)
    (i : nat) : outcome (list OutPoint) :=
  let idx := (i / outPointSize)%nat in
  match outPoints !! idx with
  | None => Panic
  | Some op =>
      match subslice keyData i (i + sha256_Size) with
      | Panic => Panic
      | Ret src =>
          let op := {| Hash := copy_at 0 (Hash op) src; Index := Index op |} in
          match subslice keyData (i + sha256_Size)
                  (i + sha256_Size + uint32Size) with
          | Panic => Panic
          | Ret b =>
              match LittleEndian_Uint32 b with
              | Panic => Panic
              | Ret v =>
                  Ret (<[idx := {| Hash := Hash op; Index := v |}]> outPoints)
              end
          end
      end
  end.

(** [ReadSilentPaymentShare]. *)
Definition ReadSilentPaymentShare (keyData value : list byte)
  : outcome (parsed SilentPaymentShare) :=
  if bool_decide (length keyData < PubKeyBytesLenCompressed)%nat
  then Ret (Failed ErrInvalidKeyData)
  else
    let outPointsLen := (length keyData - PubKeyBytesLenCompressed)%nat in
    if bool_decide (outPointsLen `mod` outPointSize ≠ 0)%nat
    then Ret (Failed ErrInvalidKeyData)
    else if bool_decide (length value ≠ PubKeyBytesLenCompressed)
    then Ret (Failed ErrInvalidPsbtFormat)
    else
      match subslice keyData 0 PubKeyBytesLenCompressed with
      | Panic => Panic
      | Ret scanKey =>
          let outPoints :=
            replicate (outPointsLen / outPointSize) zeroOutPoint in
          match for_each (readOutPoint keyData) outPoints
                  (loop_indices outPointsLen outPointSize) with
          | Panic => Panic
          | Ret outPoints =>
              Ret (Parsed {| share_ScanKey := scanKey;
                             share_OutPoints := outPoints;
                             share_Share := value |})
          end
      end.

(** [SerializeSilentPaymentShare]. *)
Definition SerializeSilentPaymentShare (share : SilentPaymentShare)
  : list byte * list byte :=
  let keyData :=
    foldl (λ keyData outPoint,
             (keyData ++ Hash outPoint)
               ++ LittleEndian_PutUint32 (Index outPoint))
          ([] ++ share_ScanKey share) (share_OutPoints share) in
  (keyData, share_Share share).

(** [ReadSilentPaymentDLEQ]. *)
Definition ReadSilentPaymentDLEQ (keyData value : list byte)
  : outcome (parsed SilentPaymentDLEQ) :=
  if bool_decide (length keyData < PubKeyBytesLenCompressed)%nat
  then Ret (Failed ErrInvalidKeyData)
  else
    let outPointsLen := (length keyData - PubKeyBytesLenCompressed)%nat in
    if bool_decide (outPointsLen `mod` outPointSize ≠ 0)%nat
    then Ret (Failed ErrInvalidKeyData)
    else if bool_decide (length value ≠ 64%nat)
    then Ret (Failed ErrInvalidPsbtFormat)
    else
      match subslice keyData 0 PubKeyBytesLenCompressed with
      | Panic => Panic
      | Ret scanKey =>
          let outPoints :=
            replicate (outPointsLen / outPointSize) zeroOutPoint in
          match for_each (readOutPoint keyData) outPoints
                  (loop_indices outPointsLen outPointSize) with
          | Panic => Panic
          | Ret outPoints =>
              Ret (Parsed {| dleq_ScanKey := scanKey;
                             dleq_OutPoints := outPoints;
                             dleq_Proof := value |})
          end
      end.

(** [SerializeSilentPaymentDLEQ]. *)
Definition SerializeSilentPaymentDLEQ (dleq : SilentPaymentDLEQ)
  : list byte * list byte :=
  let keyData :=
    foldl (λ keyData outPoint,
             (keyData ++ Hash outPoint)
               ++ LittleEndian_PutUint32 (Index outPoint))
          ([] ++ dleq_ScanKey dleq) (dleq_OutPoints dleq) in
  (keyData, dleq_Proof dleq).

(** [ReadSilentPaymentInfo]. *)
Definition ReadSilentPaymentInfo (value : list byte)
  : outcome (parsed SilentPaymentInfo) :=
  if bool_decide (length value ≠ PubKeyBytesLenCompressed * 2)%nat
  then Ret (Failed ErrInvalidPsbtFormat)
  else
    match subslice value 0 PubKeyBytesLenCompressed,
          subslice value PubKeyBytesLenCompressed (length value) with
    | Ret scanKey, Ret spendKey =>
        Ret (Parsed {| info_ScanKey := scanKey; info_SpendKey := spendKey |})
    | _, _ => Panic
    end.

(** [SerializeSilentPaymentInfo]. *)
Definition SerializeSilentPaymentInfo (info : SilentPaymentInfo)
  : list byte :=
  ([] ++ info_ScanKey info) ++ info_SpendKey info.

(** The comparison [sort.Slice] is given in [equalOutPoints]. *)
Definition outPointLess (opI opJ : OutPoint) : bool :=
  if bytes_Equal (Hash opI) (Hash opJ)
  then bool_decide (Index opI < Index opJ)
  else bool_decide (bytes_Compare (Hash opI) (Hash opJ) < 0).

(** [outPoint != b[i]] is the negation of this: equal hash arrays and equal
    indexes. *)
Definition outPointEq (a b : OutPoint) : bool :=
  bytes_Equal (Hash a) (Hash b) && bool_decide (Index a = Index b).

(** No element of the slice is [outPointLess] than the one before it. *)
Fixpoint outPointsSorted (s : list OutPoint) : bool :=
  match s with
  | [] => true
  | a :: t =>
      match t with
      | [] => true
      | b :: _ => negb (outPointLess b a) && outPointsSorted t
      end
  end.

(** [sort.Slice] with [outPointLess]: the elements of the slice after the
    call. It sorts by the comparison and swaps elements only. *)
Class GoSortSlice := {
  sort_Slice : list OutPoint → list OutPoint;
  sort_Slice_sorted : ∀ s, outPointsSorted (sort_Slice s) = true;
  sort_Slice_perm : ∀ s, sort_Slice s ≡ₚ s;
}.

(** A slice of outpoints is a window of a backing array: the array, the
    index in it of the slice's first element, and the slice's length. Two
    slices may share an array and overlap there. A slice never reaches
    beyond its array; a window that would is read as cut at the array's
    end. *)
Record opslice := { op_array : positive; op_off : nat; op_len : nat }.

Definition opheap := gmap positive (list OutPoint).

(** The backing array of a slice. *)
Definition oparray (h : opheap) (k : positive) : list OutPoint :=
  default [] (h !! k).

(** The elements of [arr[off : off+len]]. *)
Definition window (arr : list OutPoint) (off len : nat) : list OutPoint :=
  take len (drop off arr).

(** The elements of a slice; [len(s)] is their number. *)
Definition opelems (h : opheap) (s : opslice) : list OutPoint :=
  window (oparray h (op_array s)) (op_off s) (op_len s).

(** The slice that is the whole of an array of [n] elements. *)
Definition whole (k : positive) (n : nat) : opslice :=
  {| op_array := k; op_off := 0; op_len := n |}.

(** [sort.Slice(a, less)]: the elements of [a] are sorted where they lie in
    the backing array; the rest of the array stays. *)
Definition sortOutPoints {SS : GoSortSlice} (h : opheap) (a : opslice)
  : opheap :=
  match h !! op_array a with
  | None => h
  | Some arr =>
      <[op_array a :=
          take (op_off a) arr
          ++ sort_Slice (window arr (op_off a) (op_len a))
          ++ drop (op_off a + op_len a) arr]> h
  end.

(** The last loop of [equalOutPoints]: [a] from index [i] on against [b]. *)
Fixpoint outPointsDiffer (a : list OutPoint) (i : nat) (b : list OutPoint)
  : outcome bool :=
  match a with
  | [] => Ret true
  | outPoint :: a' =>
      match b !! i with
      | None => Panic
      | Some bi =>
          if negb (outPointEq outPoint bi) then Ret false
          else outPointsDiffer a' (S i) b
      end
  end.

(** [equalOutPoints]. The loop ranges over [a] as the two sorts have left
    it, and reads [b] as they have left it. *)
Definition equalOutPoints {SS : GoSortSlice} (h : opheap) (a b : opslice)
  : opheap * outcome bool :=
  if bool_decide (length (opelems h a) ≠ length (opelems h b))
  then (h, Ret false)
  else
    let h := sortOutPoints h a in
    let h := sortOutPoints h b in
    (h, outPointsDiffer (opelems h a) 0 (opelems h b)).

(** [SilentPaymentShare.EqualKey], for two shares that do not share the
    backing array of their outpoints: the two shares after the call, and
    the result. *)
Definition SilentPaymentShare_EqualKey {SS : GoSortSlice}
    (s other : SilentPaymentShare)
  : SilentPaymentShare * SilentPaymentShare * outcome bool :=
  if negb (bytes_Equal (share_ScanKey s) (share_ScanKey other))
  then (s, other, Ret false)
  else
    let h : opheap :=
      <[1%positive := share_OutPoints s]>
        (<[2%positive := share_OutPoints other]> ∅) in
    let a := whole 1 (length (share_OutPoints s)) in
    let b := whole 2 (length (share_OutPoints other)) in
    let '(h, r) := equalOutPoints h a b in
    ({| share_ScanKey := share_ScanKey s;
        share_OutPoints := opelems h a;
        share_Share := share_Share s |},
     {| share_ScanKey := share_ScanKey other;
        share_OutPoints := opelems h b;
        share_Share := share_Share other |},
     r).

(** [SilentPaymentDLEQ.EqualKey], likewise. *)
Definition SilentPaymentDLEQ_EqualKey {SS : GoSortSlice}
    (d other : SilentPaymentDLEQ)
  : SilentPaymentDLEQ * SilentPaymentDLEQ * outcome bool :=
  if negb (bytes_Equal (dleq_ScanKey d) (dleq_ScanKey other))
  then (d, other, Ret false)
  else
    let h : opheap :=
      <[1%positive := dleq_OutPoints d]>
        (<[2%positive := dleq_OutPoints other]> ∅) in
    let a := whole 1 (length (dleq_OutPoints d)) in
    let b := whole 2 (length (dleq_OutPoints other)) in
    let '(h, r) := equalOutPoints h a b in
    ({| dleq_ScanKey := dleq_ScanKey d;
        dleq_OutPoints := opelems h a;
        dleq_Proof := dleq_Proof d |},
     {| dleq_ScanKey := dleq_ScanKey other;
        dleq_OutPoints := opelems h b;
        dleq_Proof := dleq_Proof other |},
     r).

(** ** Definitions used to state the properties *)

(** The order [sortableKeys] sorts by, on serializations: [a] is not after
    [b]. *)
Definition bytes_le (a b : list byte) : Prop := bytes_Compare b a ≠ -1.

(** [a] may stand before [b] in a sorted slice. *)
Definition key_le {B : Btcec} (a b : PublicKey) : Prop := Less b a = false.

(** The elements [sortKeys] leaves in the slice. *)
Definition sorted_elems {B : Btcec} {GS : GoSort} (s : list PublicKey)
  : list PublicKey :=
  if IsSorted s then s else sort_Sort s.

(** The key at the second unique index, when there is one. *)
Definition secondUniqueKey {B : Btcec} (keys : list PublicKey)
  : option PublicKey :=
  if bool_decide (secondUniqueKeyIndex keys ≠ -1)
  then keys !! Z.to_nat (secondUniqueKeyIndex keys)
  else None.

(** The coefficient [AggregateKeys] gives a key when it computes the index
    itself. *)
Definition coefficient {B : Btcec} (keys : list PublicKey)
    (keysHash : list byte) (targetKey : PublicKey) : ModNScalar :=
  match secondUniqueKey keys with
  | Some k =>
      if keyBytesEqual k targetKey then SetInt 1
      else hashCoefficient targetKey keysHash
  | None => hashCoefficient targetKey keysHash
  end.

(** The point [AggregateKeys] accumulates over the keys [todo]. *)
Definition accumulate {B : Btcec} (keys : list PublicKey)
    (keysHash : list byte) (finalKeyJ : JacobianPoint)
    (todo : list PublicKey) : JacobianPoint :=
  foldl (λ acc key,
           AddNonConst acc
             (ScalarMultNonConst (coefficient keys keysHash key)
                (AsJacobian key)))
        finalKeyJ todo.

(** The public key built from the accumulated point. *)
Definition finalKey {B : Btcec} (finalKeyJ : JacobianPoint) : PublicKey :=
  NewPublicKey (JX (ToAffine finalKeyJ)) (JY (ToAffine finalKeyJ)).

(** The heap after the optional sort of the slice. *)
Definition heap_after_sort {B : Btcec} {GS : GoSort} (h : heap)
    (keys : slice) (sort : bool) : heap :=
  if sort then fst (sortKeys h keys) else h.

(** The elements of the slice after the optional sort. *)
Definition elems_after_sort {B : Btcec} {GS : GoSort}
    (ks : list PublicKey) (sort : bool) : list PublicKey :=
  if sort then sorted_elems ks else ks.

(** The key list fingerprint of a list of keys as [AggregateKeys] visits
    them. *)
Definition fingerprint {B : Btcec} (ks : list PublicKey) : list byte :=
  TaggedHash KeyAggTagList (concat (SerializePubKey <$> ks)).

(** All keys of the list have the same x-only serialization. *)
Definition all_equal {B : Btcec} (keys : list PublicKey) : Prop :=
  ∀ k k', k ∈ keys → k' ∈ keys → SerializePubKey k = SerializePubKey k'.

(** [n] is the index of the first key of the list whose serialization
    differs from that of the first key. *)
Definition first_differing {B : Btcec} (keys : list PublicKey) (n : nat)
  : Prop :=
  ∃ k0 k, head keys = Some k0 ∧ keys !! n = Some k ∧
          SerializePubKey k ≠ SerializePubKey k0 ∧
          ∀ j kj, (j < n)%nat → keys !! j = Some kj →
                  SerializePubKey kj = SerializePubKey k0.

(** The invariant of a session made by [NewSession]: the local nonce is
    only consumed once the combined nonce is known, and the combined nonce
    is only known once every signer's nonce is registered. *)
Definition nonce_inv {B : Btcec} {L : Musig2Lib B} (h : heap) (s : Session)
  : Prop :=
  (localNonces s = None → is_Some (combinedNonce s)) ∧
  (is_Some (combinedNonce s) → length (pubNonces s) = numSigners h s).

(** The options [CombineSig] passes to [CombineSigs]. *)
Definition combineOptions {B : Btcec} {L : Musig2Lib B} (h : heap)
    (s : Session) : list CombineOption :=
  if bool_decide (length (tweaks (ctx s)) ≠ 0%nat)
  then [WithTweakedCombine (msg s) (elems h (keySet (ctx s)))
          (tweaks (ctx s)) (shouldSort (ctx s))]
  else [].

(** The outpoint [ReadSilentPaymentShare] and [ReadSilentPaymentDLEQ] fill
    in at index [k]: decoded from the 36 bytes of the key data at offset
    [36 * k]. *)
Definition decodeAt (keyData : list byte) (k : nat) : OutPoint :=
  {| Hash := take 32 (drop (k * 36) keyData);
     Index :=
       match LittleEndian_Uint32 (take 4 (drop (k * 36 + 32) keyData)) with
       | Ret v => v
       | Panic => 0
       end |}.

(** [a] may stand before [b] in a sorted slice of outpoints. *)
Definition op_le (a b : OutPoint) : Prop := outPointLess b a = false.

(** The byte arrays of a share have the sizes of their Go types. *)
Definition share_sized (share : SilentPaymentShare) : Prop :=
  length (share_ScanKey share) = 33%nat ∧
  length (share_Share share) = 33%nat ∧
  ∀ op, op ∈ share_OutPoints share → length (Hash op) = 32%nat.

(** Two slices of outpoints with no element of a backing array in common:
    they lie in different arrays, or one ends where the other begins or
    before. *)
Definition separate (a b : opslice) : Prop :=
  op_array a ≠ op_array b ∨
  (op_off a + op_len a ≤ op_off b)%nat ∨
  (op_off b + op_len b ≤ op_off a)%nat.

(** ** Facts about [bytes.Compare] *)

Lemma byte_to_N_inj (x y : byte) : Byte.to_N x = Byte.to_N y → x = y.
Proof.
  intros E. pose proof (Byte.of_to_N x) as Hx.
  rewrite E, Byte.of_to_N in Hx. congruence.
Qed.

Lemma bytes_Compare_range a b :
  bytes_Compare a b = -1 ∨ bytes_Compare a b = 0 ∨ bytes_Compare a b = 1.
Proof.
  revert b. induction a as [|x a IH]; intros [|y b]; simpl; auto.
  destruct (N.compare _ _); auto.
Qed.

Lemma bytes_Compare_refl a : bytes_Compare a a = 0.
Proof.
  induction a as [|x a IH]; simpl; [done|]. by rewrite N.compare_refl.
Qed.

Lemma bytes_Compare_eq a b : bytes_Compare a b = 0 → a = b.
Proof.
  revert b. induction a as [|x a IH]; intros [|y b]; simpl; try done.
  destruct (N.compare _ _) eqn:E; try done.
  intros H. apply N.compare_eq in E. apply byte_to_N_inj in E.
  f_equal; auto.
Qed.

Lemma bytes_Compare_swap a b :
  bytes_Compare b a = - bytes_Compare a b.
Proof.
  revert b. induction a as [|x a IH]; intros [|y b]; simpl; try done.
  rewrite (N.compare_antisym (Byte.to_N x) (Byte.to_N y)).
  destruct (N.compare _ _); simpl; auto.
Qed.

Lemma bytes_Compare_lt_trans a b c :
  bytes_Compare a b = -1 → bytes_Compare b c ≠ 1 → bytes_Compare a c = -1.
Proof.
  revert b c. induction a as [|x a IH]; intros [|y b] [|z c]; simpl;
    try done.
  destruct (N.compare (Byte.to_N x) (Byte.to_N y)) eqn:E1;
    destruct (N.compare (Byte.to_N y) (Byte.to_N z)) eqn:E2;
    try done; intros H1 H2.
  - apply N.compare_eq in E1, E2. rewrite E1, E2, N.compare_refl. eauto.
  - apply N.compare_eq in E1. by rewrite E1, E2.
  - apply N.compare_eq in E2. by rewrite <- E2, E1.
  - rewrite N.compare_lt_iff in E1, E2.
    by rewrite (proj2 (N.compare_lt_iff _ _) (N.lt_trans _ _ _ E1 E2)).
Qed.

Lemma bytes_Equal_true a b : bytes_Equal a b = true ↔ a = b.
Proof.
  unfold bytes_Equal. rewrite bool_decide_eq_true. split.
  - apply bytes_Compare_eq.
  - intros ->. apply bytes_Compare_refl.
Qed.

Lemma bytes_le_alt a b : bytes_le a b ↔ bytes_Compare a b ≠ 1.
Proof. unfold bytes_le. rewrite (bytes_Compare_swap a b). lia. Qed.

#[local] Instance bytes_le_trans : Transitive bytes_le.
Proof.
  intros a b c Hab Hbc Hca. apply Hbc.
  apply (bytes_Compare_lt_trans c a b); [done|by apply bytes_le_alt].
Qed.

#[local] Instance bytes_le_antisym : AntiSymm (=) bytes_le.
Proof.
  intros a b Hab Hba. unfold bytes_le in *.
  apply bytes_Compare_eq.
  destruct (bytes_Compare_range a b) as [H|[H|H]]; [done..|].
  rewrite (bytes_Compare_swap a b) in Hab. lia.
Qed.

#[local] Instance bytes_le_total : Total bytes_le.
Proof.
  intros a b. unfold bytes_le. rewrite (bytes_Compare_swap a b).
  destruct (bytes_Compare_range a b) as [H|[H|H]]; lia.
Qed.

(** ** Sorting keys *)

Section sorting_facts.
Context {B : Btcec}.

Lemma key_le_bytes a b :
  key_le a b ↔ bytes_le (SerializePubKey a) (SerializePubKey b).
Proof.
  unfold key_le, Less, bytes_le. by rewrite bool_decide_eq_false.
Qed.

Lemma IsSorted_cons a s :
  IsSorted (a :: s) = true ↔ HdRel key_le a s ∧ IsSorted s = true.
Proof.
  destruct s as [|b s].
  - simpl. split; [by auto|done].
  - change (IsSorted (a :: b :: s))
      with (negb (Less b a) && IsSorted (b :: s)).
    rewrite andb_true_iff, negb_true_iff. split.
    + intros [H1 H2]. split; [by constructor|done].
    + intros [H1 H2]. split; [by inversion H1|done].
Qed.

Lemma IsSorted_Sorted s : IsSorted s = true ↔ Sorted key_le s.
Proof.
  induction s as [|a s IH].
  - split; [constructor|done].
  - rewrite IsSorted_cons, IH. split.
    + intros [H1 H2]. by constructor.
    + intros H. by inversion H.
Qed.

Lemma IsSorted_bytes s :
  IsSorted s = true → Sorted bytes_le (SerializePubKey <$> s).
Proof.
  rewrite IsSorted_Sorted. apply Sorted_fmap.
  intros a b. by rewrite key_le_bytes.
Qed.

(** Two sorted slices with the same keys carry the same serializations at
    the same indexes. *)
Lemma sorted_serializations_unique (s s' : list PublicKey) :
  IsSorted s = true → IsSorted s' = true → s ≡ₚ s' →
  SerializePubKey <$> s = SerializePubKey <$> s'.
Proof.
  intros H H' P. apply (Sorted_unique bytes_le).
  - by apply IsSorted_bytes.
  - by apply IsSorted_bytes.
  - by apply fmap_Permutation.
Qed.

Context {GS : GoSort}.

Lemma sorted_elems_sorted s : IsSorted (sorted_elems s) = true.
Proof.
  unfold sorted_elems. destruct (IsSorted s) eqn:E; [done|].
  apply sort_Sort_sorted.
Qed.

Lemma sorted_elems_of_sorted s : IsSorted s = true → sorted_elems s = s.
Proof. unfold sorted_elems. by intros ->. Qed.

Lemma sorted_elems_perm s : sorted_elems s ≡ₚ s.
Proof.
  unfold sorted_elems. destruct (IsSorted s); [done|]. apply sort_Sort_perm.
Qed.

Lemma elems_insert (h : heap) (k : slice) s : elems (<[k := s]> h) k = s.
Proof. unfold elems, heap, slice in *. by rewrite lookup_insert_eq. Qed.

Lemma sortKeys_slice (h : heap) keys : snd (sortKeys h keys) = keys.
Proof. unfold sortKeys. by destruct (IsSorted _). Qed.

Lemma sortKeys_elems (h : heap) keys :
  elems (fst (sortKeys h keys)) keys = sorted_elems (elems h keys).
Proof.
  unfold sortKeys, sorted_elems. destruct (IsSorted _); simpl; [done|].
  apply elems_insert.
Qed.

Lemma sortKeys_sorted_noop (h : heap) keys :
  IsSorted (elems h keys) = true → sortKeys h keys = (h, keys).
Proof. unfold sortKeys. by intros ->. Qed.

Lemma sortKeys_twice (h : heap) keys :
  sortKeys (fst (sortKeys h keys)) keys = (fst (sortKeys h keys), keys).
Proof.
  apply sortKeys_sorted_noop. rewrite sortKeys_elems.
  apply sorted_elems_sorted.
Qed.

Lemma sortKeys_eq (h : heap) keys :
  sortKeys h keys = (fst (sortKeys h keys), keys).
Proof. rewrite <- (sortKeys_slice h keys) at 3. by destruct (sortKeys _ _). Qed.

End sorting_facts.

(** ** The second unique key and the coefficients *)

Section coefficient_facts.
Context {B : Btcec}.

Lemma keyBytesEqual_true a b :
  keyBytesEqual a b = true ↔ SerializePubKey a = SerializePubKey b.
Proof. apply bytes_Equal_true. Qed.

Lemma keyBytesEqual_bytes a a' b b' :
  SerializePubKey a = SerializePubKey a' →
  SerializePubKey b = SerializePubKey b' →
  keyBytesEqual a b = keyBytesEqual a' b'.
Proof. unfold keyBytesEqual. by intros -> ->. Qed.

(** The loop returns -1 or the index of an element it was given. *)
Lemma secondUniqueKeyIndex_from_range first i rest :
  0 ≤ i →
  secondUniqueKeyIndex_from first i rest = -1 ∨
  i ≤ secondUniqueKeyIndex_from first i rest < i + Z.of_nat (length rest).
Proof.
  revert i. induction rest as [|k rest IH]; intros i Hi; simpl; [by left|].
  destruct (keyBytesEqual k first); simpl.
  - destruct (IH (i + 1)) as [H|H]; [lia|by left|right; lia].
  - right. lia.
Qed.

(** What the loop returns: -1 when every element equals [first], and
    otherwise the index of the first element that does not. *)
Lemma secondUniqueKeyIndex_from_spec first i rest :
  0 ≤ i →
  (secondUniqueKeyIndex_from first i rest = -1 ∧
   Forall (λ k, keyBytesEqual k first = true) rest) ∨
  (∃ n k, secondUniqueKeyIndex_from first i rest = i + Z.of_nat n ∧
          rest !! n = Some k ∧ keyBytesEqual k first = false ∧
          Forall (λ k, keyBytesEqual k first = true) (take n rest)).
Proof.
  revert i. induction rest as [|k rest IH]; intros i Hi; simpl.
  - left. split; [done|constructor].
  - destruct (keyBytesEqual k first) eqn:E; simpl.
    + destruct (IH (i + 1)) as [[H1 H2]|(n & k' & H1 & H2 & H3 & H4)];
        [lia| |].
      * left. split; [done|by constructor].
      * right. exists (S n), k'. simpl.
        split; [lia|]. split; [done|]. split; [done|]. by constructor.
    + right. exists 0%nat, k. simpl.
      split; [lia|]. split; [done|]. split; [done|]. constructor.
Qed.

Lemma secondUniqueKeyIndex_from_bytes first first' i rest rest' :
  SerializePubKey first = SerializePubKey first' →
  SerializePubKey <$> rest = SerializePubKey <$> rest' →
  secondUniqueKeyIndex_from first i rest =
  secondUniqueKeyIndex_from first' i rest'.
Proof.
  intros Hf. revert i rest'.
  induction rest as [|k rest IH]; intros i [|k' rest'] E; simpl in *;
    try done.
  injection E as Ek E.
  rewrite (keyBytesEqual_bytes k k' first first') by done.
  destruct (keyBytesEqual k' first'); simpl; auto.
Qed.

Lemma secondUniqueKeyIndex_bytes keys keys' :
  SerializePubKey <$> keys = SerializePubKey <$> keys' →
  secondUniqueKeyIndex keys = secondUniqueKeyIndex keys'.
Proof.
  intros E. destruct keys as [|k keys], keys' as [|k' keys']; try done.
  unfold secondUniqueKeyIndex.
  apply secondUniqueKeyIndex_from_bytes; [|done].
  simpl in E. by injection E.
Qed.

Lemma secondUniqueKeyIndex_range keys :
  secondUniqueKeyIndex keys = -1 ∨
  0 ≤ secondUniqueKeyIndex keys < Z.of_nat (length keys).
Proof.
  destruct keys as [|first keys]; [by left|].
  unfold secondUniqueKeyIndex.
  destruct (secondUniqueKeyIndex_from_range first 0 (first :: keys));
    [done|by left|right; lia].
Qed.

Lemma aggregationCoefficient_coefficient keys targetKey keysHash :
  aggregationCoefficient keys targetKey keysHash (secondUniqueKeyIndex keys)
  = Ret (coefficient keys keysHash targetKey).
Proof.
  unfold aggregationCoefficient, coefficient, secondUniqueKey, index.
  case_bool_decide as Hidx; [|done].
  destruct (secondUniqueKeyIndex_range keys) as [H|H]; [done|].
  rewrite bool_decide_eq_true_2 by lia.
  destruct (lookup_lt_is_Some_2 keys (Z.to_nat (secondUniqueKeyIndex keys)))
    as [k Hk]; [lia|].
  rewrite Hk. by destruct (keyBytesEqual k targetKey).
Qed.

Lemma hashCoefficient_bytes t t' keysHash :
  SerializePubKey t = SerializePubKey t' →
  hashCoefficient t keysHash = hashCoefficient t' keysHash.
Proof. unfold hashCoefficient, coefficientBytes. by intros ->. Qed.

Lemma coefficient_bytes keys keys' keysHash t :
  SerializePubKey <$> keys = SerializePubKey <$> keys' →
  coefficient keys keysHash t = coefficient keys' keysHash t.
Proof.
  intros E. unfold coefficient, secondUniqueKey.
  rewrite <- (secondUniqueKeyIndex_bytes keys keys' E).
  case_bool_decide; [|done].
  pose proof (f_equal (λ l, l !! Z.to_nat (secondUniqueKeyIndex keys)) E)
    as El.
  simpl in El. rewrite !list_lookup_fmap in El.
  destruct (keys !! _) as [k|], (keys' !! _) as [k'|]; simpl in El;
    try done.
  injection El as El.
  by rewrite (keyBytesEqual_bytes k k' t t El eq_refl).
Qed.

Lemma aggregateLoop_accumulate keys keysHash finalKeyJ todo :
  aggregateLoop keys keysHash (secondUniqueKeyIndex keys) finalKeyJ todo
  = Ret (accumulate keys keysHash finalKeyJ todo).
Proof.
  revert finalKeyJ. induction todo as [|key todo IH]; intros acc; simpl;
    [done|].
  rewrite aggregationCoefficient_coefficient. apply IH.
Qed.

Lemma accumulate_bytes keys keys' keysHash acc todo :
  SerializePubKey <$> keys = SerializePubKey <$> keys' →
  accumulate keys keysHash acc todo = accumulate keys' keysHash acc todo.
Proof.
  intros E. unfold accumulate. revert acc.
  induction todo as [|key todo IH]; intros acc; simpl; [done|].
  by rewrite (coefficient_bytes keys keys' keysHash key E), IH.
Qed.

Context {BL : BtcecLaws B}.

Lemma accumulate_proper keys keysHash acc acc' todo :
  Jeq acc acc' →
  Jeq (accumulate keys keysHash acc todo)
      (accumulate keys keysHash acc' todo).
Proof.
  unfold accumulate. revert acc acc'.
  induction todo as [|key todo IH]; intros acc acc' E; simpl; [done|].
  apply IH. by apply AddNonConst_proper.
Qed.

(** The order in which the keys are visited does not change the element
    accumulated. *)
Lemma accumulate_perm keys keysHash acc todo todo' :
  todo ≡ₚ todo' →
  Jeq (accumulate keys keysHash acc todo)
      (accumulate keys keysHash acc todo').
Proof.
  intros P. revert acc.
  induction P as [|x l l' P IH|x y l|l l' l'' P IH P' IH']; intros acc.
  - done.
  - apply (IH (AddNonConst acc _)).
  - unfold accumulate. simpl. apply accumulate_proper.
    etrans; [apply AddNonConst_assoc|].
    etrans; [|symmetry; apply AddNonConst_assoc].
    apply AddNonConst_proper; [done|apply AddNonConst_comm].
  - etrans; [apply IH|apply IH'].
Qed.

Lemma finalKey_proper p q : Jeq p q → finalKey p = finalKey q.
Proof. intros E. unfold finalKey. by rewrite (ToAffine_proper p q E). Qed.

End coefficient_facts.

(** ** [AggregateKeys] without options *)

Section aggregate_facts.
Context {B : Btcec} {GS : GoSort}.

Lemma elems_heap_after_sort h keys sort :
  elems (heap_after_sort h keys sort) keys
  = elems_after_sort (elems h keys) sort.
Proof. destruct sort; [apply sortKeys_elems|done]. Qed.

Lemma keyHashFingerprint_eq h keys sort :
  keyHashFingerprint h keys sort =
  (heap_after_sort h keys sort,
   TaggedHash KeyAggTagList
     (concat (SerializePubKey <$> elems_after_sort (elems h keys) sort))).
Proof.
  unfold keyHashFingerprint. rewrite <- elems_heap_after_sort.
  destruct sort; simpl; [|done]. by rewrite (sortKeys_eq h keys).
Qed.

Lemma heap_after_sort_twice h keys sort :
  heap_after_sort (heap_after_sort h keys sort) keys sort
  = heap_after_sort h keys sort.
Proof.
  destruct sort; simpl; [|done]. by rewrite sortKeys_twice.
Qed.

Lemma AggregateKeys_default h keys sort :
  AggregateKeys h keys sort [] =
  let ks := elems_after_sort (elems h keys) sort in
  (heap_after_sort h keys sort,
   Ret (finalKey (accumulate ks (fingerprint ks) JacobianZero ks))).
Proof.
  unfold AggregateKeys. simpl foldl. cbv beta iota.
  change (keyHash defaultKeyAggOptions) with (@None (list byte)).
  change (uniqueKeyIndex defaultKeyAggOptions) with (@None Z).
  replace (if sort then sortKeys h keys else (h, keys))
    with (heap_after_sort h keys sort, keys)
    by (destruct sort; simpl; [by rewrite <- sortKeys_eq|done]).
  cbv beta iota. rewrite keyHashFingerprint_eq, heap_after_sort_twice.
  rewrite !elems_heap_after_sort.
  replace (elems_after_sort (elems_after_sort (elems h keys) sort) sort)
    with (elems_after_sort (elems h keys) sort).
  - by rewrite aggregateLoop_accumulate.
  - destruct sort; simpl; [|done].
    symmetry. apply sorted_elems_of_sorted, sorted_elems_sorted.
Qed.

End aggregate_facts.

(** ** Instances of the interfaces *)

(** A [sort.Sort] meeting its contract: merge sort. *)
#[local] Instance key_le_dec {B : Btcec} (a b : PublicKey) :
  Decision (key_le a b).
Proof. unfold key_le. apply _. Defined.

#[local] Instance key_le_total {B : Btcec} : Total key_le.
Proof.
  intros a b. rewrite !key_le_bytes. apply bytes_le_total.
Qed.

Lemma merge_sort_IsSorted {B : Btcec} (s : list PublicKey) :
  IsSorted (merge_sort key_le s) = true.
Proof. apply IsSorted_Sorted, Sorted_merge_sort, _. Qed.

Definition mergeGoSort {B : Btcec} : GoSort :=
  {| sort_Sort := merge_sort key_le;
     sort_Sort_sorted := merge_sort_IsSorted;
     sort_Sort_perm := merge_sort_Permutation key_le |}.

(** The integers under addition as a curve. The serialization of a key
    keeps its absolute value (one byte), as the x-only serialization keeps
    the x coordinate: [k] and [-k] are distinct keys with the same
    serialization, and the key parsed from a serialization is the
    non-negative one. *)
Module Zmodel.

Definition byte_of_Z (z : Z) : byte :=
  default Byte.x00 (Byte.of_N (Z.to_N (z mod 256))).

Definition Z_of_bytes (bs : list byte) : Z :=
  foldl (λ acc b, 256 * acc + Z.of_N (Byte.to_N b)) 0 bs.

Definition hash (tag m : list byte) : list byte :=
  [byte_of_Z (Z_of_bytes tag + 7 * Z_of_bytes m + 3)].

Definition parse (bs : list byte) : result Z :=
  match bs with
  | [b] => Ok (Z.of_N (Byte.to_N b))
  | _ => Err (ErrOther "malformed public key")
  end.

Definition curve : Btcec :=
  {| PublicKey := Z;
     PrivateKey := Z;
     ModNScalar := Z;
     FieldVal := Z;
     JacobianPoint := Z;
     PubKey := λ d, d;
     SerializePubKey := λ k, [byte_of_Z (Z.abs k)];
     ParsePubKey := parse;
     IsEqual := Z.eqb;
     TaggedHash := hash;
     SetInt := λ z, z;
     SetByteSlice := Z_of_bytes;
     JacobianZero := 0;
     AsJacobian := λ k, k;
     ScalarMultNonConst := Z.mul;
     AddNonConst := Z.add;
     ToAffine := λ p, p;
     JX := λ p, p;
     JY := λ p, 0;
     NewPublicKey := λ x y, x |}.

Lemma laws : BtcecLaws curve.
Proof.
  apply (@Build_BtcecLaws curve (@eq Z)); simpl.
  - apply eq_equivalence.
  - by intros p p' q q' -> ->.
  - intros p q. apply Z.add_comm.
  - intros p q r. symmetry. apply Z.add_assoc.
  - by intros p q ->.
Defined.

Definition sorter : @GoSort curve := mergeGoSort.

Definition aggregateNonces (ns : list (list byte)) : result (list byte) :=
  match ns with
  | [] => Err (ErrOther "no nonces")
  | _ => Ok (concat ns)
  end.

(** A partial signature is a pair [(s, R)]. *)
Definition sign (sec priv : Z) (combined : list byte) (ks : list Z)
    (m : list byte) (opts : list (list Z)) : result (Z * Z) :=
  Ok (sec + priv * Z_of_bytes m, Z_of_bytes combined).

Definition combineSigs (R : Z) (sgs : list (Z * Z)) (opts : list (list Z))
  : Z * Z :=
  (R, foldr Z.add 0 (fst <$> sgs)).

Definition verify (sg : Z * Z) (m : list byte) (key : Z) : bool :=
  bool_decide (snd sg = fst sg * key).

Definition uniqueIndex (h : @heap curve) (s : slice) (sort : bool)
  : @heap curve * Z :=
  (@heap_after_sort curve sorter h s sort,
   @secondUniqueKeyIndex curve
     (elems (@heap_after_sort curve sorter h s sort) s)).

Definition aggregateTweaked (h : @heap curve) (s : slice) (sort : bool)
    (kh : list byte) (idx : Z) (tw : list Z) : @heap curve * result Z :=
  match @AggregateKeys curve sorter h s sort
          [WithKeysHash (Some kh); WithUniqueKeyIndex idx] with
  | (h, Ret k) => (h, Ok k)
  | (h, Panic) => (h, Err (ErrOther "panic"))
  end.

Definition lib : Musig2Lib curve :=
  @Build_Musig2Lib curve Z Z (Z * Z)%type (Z * Z)%type (list Z) (list Z)
    (λ sg : Z * Z, snd sg) aggregateNonces sign (λ tw, tw)
    (λ m ks tw sort, tw) combineSigs verify uniqueIndex aggregateTweaked.

End Zmodel.

(** ** The claims *)

(** C5. With [sort = true], [AggregateKeys] returns the same public key for
    a key list, empty or not, and for every permutation of it (whatever
    heaps and slices hold the two lists), so every serialization of the two
    results is identical. *)
Theorem AggregateKeys_sorted_permutation_invariant
    {B : Btcec} {BL : BtcecLaws B} {GS : GoSort}
    (h h' : heap) (keys keys' : slice) :
  elems h keys ≡ₚ elems h' keys' →
  ∃ key, snd (AggregateKeys h keys true []) = Ret key ∧
         snd (AggregateKeys h' keys' true []) = Ret key.
Proof.
  intros P. rewrite !AggregateKeys_default. cbv zeta. simpl.
  set (ks := sorted_elems (elems h keys)).
  set (ks' := sorted_elems (elems h' keys')).
  eexists. split; [done|]. f_equal.
  assert (ks ≡ₚ ks') as Pks.
  { unfold ks, ks'. by rewrite !sorted_elems_perm. }
  assert (SerializePubKey <$> ks = SerializePubKey <$> ks') as E.
  { apply sorted_serializations_unique; [apply sorted_elems_sorted..|done]. }
  apply finalKey_proper.
  assert (fingerprint ks' = fingerprint ks) as ->.
  { unfold fingerprint. by rewrite E. }
  rewrite (accumulate_bytes ks' ks) by done.
  symmetry. by apply accumulate_perm.
Qed.

Lemma AggregateKeys_sorted_permutation_invariant_witness :
  ∃ key,
    snd (@AggregateKeys Zmodel.curve Zmodel.sorter
           {[ 1%positive := [3; -5; 2] ]} 1%positive true []) = Ret key ∧
    snd (@AggregateKeys Zmodel.curve Zmodel.sorter
           {[ 2%positive := [2; 3; -5] ]} 2%positive true []) = Ret key.
Proof.
  apply (@AggregateKeys_sorted_permutation_invariant
           Zmodel.curve Zmodel.laws Zmodel.sorter).
  vm_compute. symmetry. apply (Permutation_cons_append [3; -5] 2).
Defined.

Section claims_keys.
Context {B : Btcec}.

Lemma keyBytesEqual_false a b :
  keyBytesEqual a b = false ↔ SerializePubKey a ≠ SerializePubKey b.
Proof.
  rewrite <- keyBytesEqual_true. by destruct (keyBytesEqual a b).
Qed.

Lemma secondUniqueKeyIndex_spec keys :
  (all_equal keys ∧ secondUniqueKeyIndex keys = -1) ∨
  (∃ n, secondUniqueKeyIndex keys = Z.of_nat n ∧ first_differing keys n).
Proof.
  destruct keys as [|k0 keys].
  { left. split; [|done]. intros k k' Hk. by apply elem_of_nil in Hk. }
  unfold secondUniqueKeyIndex.
  destruct (secondUniqueKeyIndex_from_spec k0 0 (k0 :: keys))
    as [[H1 H2]|(n & k & H1 & H2 & H3 & H4)]; [done| |].
  - left. split; [|done]. rewrite Forall_forall in H2.
    intros k k' Hk Hk'. apply H2 in Hk, Hk'.
    rewrite keyBytesEqual_true in Hk, Hk'. congruence.
  - right. exists n. split; [lia|]. exists k0, k.
    split; [done|]. split; [done|]. split; [by apply keyBytesEqual_false|].
    intros j kj Hj Hkj. rewrite Forall_forall in H4.
    apply keyBytesEqual_true, H4, list_elem_of_lookup. exists j.
    by rewrite lookup_take_lt.
Qed.

Lemma all_equal_index keys :
  all_equal keys → secondUniqueKeyIndex keys = -1.
Proof.
  intros H. destruct (secondUniqueKeyIndex_spec keys)
    as [[_ E]|(n & _ & k0 & k & H0 & Hn & Hne & _)]; [done|].
  exfalso. apply Hne, H.
  - apply list_elem_of_lookup. eauto.
  - destruct keys; [done|]. injection H0 as ->. apply list_elem_of_here.
Qed.

Lemma all_equal_coefficient keys keysHash t :
  all_equal keys → coefficient keys keysHash t = hashCoefficient t keysHash.
Proof.
  intros H. unfold coefficient, secondUniqueKey.
  rewrite (all_equal_index keys H). by case_bool_decide.
Qed.

Lemma accumulate_all_equal keys keysHash acc todo :
  all_equal keys →
  accumulate keys keysHash acc todo =
  foldl (λ acc key,
           AddNonConst acc
             (ScalarMultNonConst (hashCoefficient key keysHash)
                (AsJacobian key)))
        acc todo.
Proof.
  intros H. unfold accumulate. revert acc.
  induction todo as [|key todo IH]; intros acc; simpl; [done|].
  by rewrite all_equal_coefficient, IH.
Qed.

Lemma all_equal_IsSorted keys : all_equal keys → IsSorted keys = true.
Proof.
  intros H. apply IsSorted_Sorted.
  induction keys as [|a keys IH]; [constructor|].
  constructor.
  - apply IH. intros k k' Hk Hk'. apply H; by apply list_elem_of_further.
  - destruct keys as [|b keys]; constructor.
    apply key_le_bytes. unfold bytes_le.
    rewrite (H b a), bytes_Compare_refl; [done|..].
    + apply list_elem_of_further, list_elem_of_here.
    + apply list_elem_of_here.
Qed.

End claims_keys.



(** C8, as stated, fails: applied to an empty key list [AggregateKeys]
    returns a public key; it does not fail. *)
Lemma AggregateKeys_empty_returns_key :
  elems ({[ 1%positive := [] ]} : @heap Zmodel.curve) 1%positive = [] ∧
  returns (snd (@AggregateKeys Zmodel.curve Zmodel.sorter
                  {[ 1%positive := [] ]} 1%positive true [])) ∧
  returns (snd (@AggregateKeys Zmodel.curve Zmodel.sorter
                  {[ 1%positive := [] ]} 1%positive false [])).
Proof. split; [done|]. split; by eexists. Qed.

(** C8, amended. [AggregateKeys] has no error result. Over a key list whose
    keys are all equal by x-only serialization, the empty list included, it
    leaves the slice as it is and returns the public key of the sum of the
    keys each multiplied by its tagged-hash coefficient; for the empty list
    that is the key built from the zero-value Jacobian point. *)
Theorem AggregateKeys_all_equal_returns_key
    {B : Btcec} {GS : GoSort} (h : heap) (keys : slice) (sort : bool) :
  all_equal (elems h keys) →
  let ks := elems h keys in
  AggregateKeys h keys sort [] =
    (h, Ret (finalKey
               (foldl (λ acc key,
                         AddNonConst acc
                           (ScalarMultNonConst
                              (hashCoefficient key (fingerprint ks))
                              (AsJacobian key)))
                      JacobianZero ks))) ∧
  (ks = [] → AggregateKeys h keys sort [] = (h, Ret (finalKey JacobianZero))).
Proof.
  intros Hall ks.
  assert (elems_after_sort ks sort = ks) as Eks.
  { destruct sort; [|done]. by apply sorted_elems_of_sorted, all_equal_IsSorted. }
  assert (heap_after_sort h keys sort = h) as Eh.
  { destruct sort; [|done]. simpl.
    by rewrite sortKeys_sorted_noop by by apply all_equal_IsSorted. }
  assert (AggregateKeys h keys sort [] =
          (h, Ret (finalKey (accumulate ks (fingerprint ks) JacobianZero ks))))
    as E.
  { rewrite AggregateKeys_default. cbv zeta. fold ks. by rewrite Eks, Eh. }
  split.
  - rewrite E. do 3 f_equal. by apply accumulate_all_equal.
  - intros Hnil. rewrite E. by rewrite Hnil.
Qed.

Lemma AggregateKeys_all_equal_returns_key_witness :
  @AggregateKeys Zmodel.curve Zmodel.sorter
    {[ 1%positive := [3; -3; 3] ]} 1%positive true []
  = ({[ 1%positive := [3; -3; 3] ]}, Ret 357).
Proof.
  refine (proj1 (@AggregateKeys_all_equal_returns_key
                   Zmodel.curve Zmodel.sorter
                   {[ 1%positive := [3; -3; 3] ]} 1%positive true _)).
  intros k k' Hk Hk'. vm_compute in Hk, Hk'.
  assert (∀ x : Z, x ∈ [3; -3; 3] → Z.abs x = 3) as Habs.
  { intros x Hx. repeat (apply elem_of_cons in Hx as [->|Hx]; [done|]).
    by apply elem_of_nil in Hx. }
  simpl. by rewrite (Habs k Hk), (Habs k' Hk').
Defined.

(** C10. [sortKeys] returns the slice it received. When the elements of the
    slice are not already sorted, the call leaves them reordered in the
    caller's backing array: the slice then holds the sorted elements, which
    differ from the order supplied, and so it does after
    [keyHashFingerprint] and [AggregateKeys] with [sort = true]. When the
    elements are already sorted the heap is unchanged. No other slice
    changes. *)
Theorem sortKeys_reorders_in_place
    {B : Btcec} {GS : GoSort} (h : heap) (keys : slice)
    (keyOpts : list KeyAggOption) :
  let ks := elems h keys in
  let h' := fst (sortKeys h keys) in
  snd (sortKeys h keys) = keys ∧
  fst (keyHashFingerprint h keys true) = h' ∧
  fst (AggregateKeys h keys true keyOpts) = h' ∧
  (∀ other, other ≠ keys → h' !! other = h !! other) ∧
  if IsSorted ks then h' = h
  else elems h' keys = sort_Sort ks ∧ elems h' keys ≠ ks ∧
       elems h' keys ≡ₚ ks ∧ IsSorted (elems h' keys) = true.
Proof.
  intros ks h'. split; [apply sortKeys_slice|].
  split; [by rewrite keyHashFingerprint_eq|].
  split.
  { unfold AggregateKeys. rewrite (sortKeys_eq h keys). fold h'.
    destruct (keyHash _).
    - by destruct (aggregateLoop _ _ _ _ _).
    - rewrite keyHashFingerprint_eq. simpl. unfold h'.
      rewrite sortKeys_twice. by destruct (aggregateLoop _ _ _ _ _). }
  split.
  { intros other Hne. unfold h', sortKeys.
    destruct (IsSorted _); simpl; [done|].
    unfold heap, slice in *. by rewrite lookup_insert_ne. }
  unfold h', sortKeys. fold ks. destruct (IsSorted ks) eqn:E; simpl; [done|].
  rewrite elems_insert. split; [done|]. split; [|split].
  - intros Heq. rewrite <- Heq, sort_Sort_sorted in E. done.
  - apply sort_Sort_perm.
  - apply sort_Sort_sorted.
Qed.

(** ** [NewContext] *)

Section claims_context.
Context {B : Btcec} {GS : GoSort} {L : Musig2Lib B}.

Lemma keyFound_false signers pk :
  keyFound signers pk = false ↔ ∀ key, key ∈ signers → IsEqual key pk = false.
Proof.
  induction signers as [|k signers IH]; simpl.
  - split; [|done]. intros _ key Hk. by apply elem_of_nil in Hk.
  - destruct (IsEqual k pk) eqn:E.
    + split; [done|]. intros H. rewrite <- E. apply H, list_elem_of_here.
    + rewrite IH. split.
      * intros H key [->|Hk]%elem_of_cons; auto.
      * intros H key Hk. by apply H, list_elem_of_further.
Qed.

End claims_context.

(** C6. [NewContext] decides membership with [IsEqual] (both coordinates)
    against the even-y key parsed from the x-only serialization of the
    signing key's public key: when no signer is [IsEqual] to that parsed key
    it returns [ErrSignerNotInKeySet] with the signers' slice untouched, also
    when a signer has the x-only serialization of the signing key's public
    key, and even when it is that public key. *)
Theorem NewContext_compares_points_not_serializations
    {B : Btcec} {GS : GoSort} {L : Musig2Lib B}
    (h : heap) (signingKey : PrivateKey) (signers : slice)
    (shouldSort : bool) (ctxOpts : list ContextOption) (pubKey : PublicKey) :
  ParsePubKey (SerializePubKey (PubKey signingKey)) = Ok pubKey →
  (∀ key, key ∈ elems h signers → IsEqual key pubKey = false) →
  NewContext h signingKey signers shouldSort ctxOpts
  = (h, Err ErrSignerNotInKeySet).
Proof.
  intros Hparse Hnone. unfold NewContext. rewrite Hparse.
  by rewrite (proj2 (keyFound_false _ _) Hnone).
Qed.

Lemma NewContext_compares_points_not_serializations_witness :
  @PubKey Zmodel.curve (-3) ∈
    @elems Zmodel.curve {[ 1%positive := [-3; 5] ]} 1%positive ∧
  @NewContext Zmodel.curve Zmodel.sorter Zmodel.lib
    {[ 1%positive := [-3; 5] ]} (-3) 1%positive true []
  = ({[ 1%positive := [-3; 5] ]}, Err ErrSignerNotInKeySet).
Proof.
  split; [apply list_elem_of_here|].
  apply (@NewContext_compares_points_not_serializations
           Zmodel.curve Zmodel.sorter Zmodel.lib _ _ _ _ _ 3).
  - reflexivity.
  - intros key Hkey. vm_compute in Hkey.
    repeat (apply elem_of_cons in Hkey as [->|Hkey]; [done|]).
    by apply elem_of_nil in Hkey.
Defined.

(** ** Sessions *)

Section session_facts.
Context {B : Btcec} {GS : GoSort} {L : Musig2Lib B}.
Variable h : heap.

(** Unfold a method call and split on every test it makes. *)
Ltac method_cases :=
  unfold after, PublicNonce, NumRegisteredNonces, RegisterPubNonce,
    SessionSign, CombineSig, FinalSig;
  simpl;
  repeat (case_bool_decide || case_match); simpl in *.

Lemma after_ctx s c : ctx (after h s c) = ctx s.
Proof. destruct c; by method_cases. Qed.

Lemma after_numSigners s c : numSigners h (after h s c) = numSigners h s.
Proof. unfold numSigners. by rewrite after_ctx. Qed.

(** Once the local nonce is gone it stays gone. *)
Lemma after_localNonces_None s c :
  localNonces s = None → localNonces (after h s c) = None.
Proof. intros H. destruct c; method_cases; congruence. Qed.

(** Without a local nonce no call changes the local partial signature. *)
Lemma after_ourSig s c :
  localNonces s = None → ourSig (after h s c) = ourSig s.
Proof. intros H. destruct c; method_cases; congruence. Qed.

(** Signatures are only ever appended. *)
Lemma after_sigs_prefix s c : sigs s `prefix_of` sigs (after h s c).
Proof.
  destruct c; method_cases; try done; by apply prefix_app_r.
Qed.

Lemma run_localNonces_None s calls :
  localNonces s = None → localNonces (run h s calls) = None.
Proof.
  revert s. induction calls as [|c calls IH]; intros s H; simpl; [done|].
  by apply IH, after_localNonces_None.
Qed.

Lemma run_ourSig s calls :
  localNonces s = None → ourSig (run h s calls) = ourSig s.
Proof.
  revert s. induction calls as [|c calls IH]; intros s H; simpl; [done|].
  rewrite IH by by apply after_localNonces_None. by apply after_ourSig.
Qed.

Lemma run_sigs_prefix s calls : sigs s `prefix_of` sigs (run h s calls).
Proof.
  revert s. induction calls as [|c calls IH]; intros s; simpl; [done|].
  etrans; [apply after_sigs_prefix|apply IH].
Qed.

Lemma NewSession_inv c gen s : NewSession c gen = Ok s → nonce_inv h s.
Proof.
  unfold NewSession. destruct gen as [n|e]; [|done]. intros [= <-].
  split; simpl; [done|]. by intros [? ?].
Qed.

Lemma after_inv s c : nonce_inv h s → nonce_inv h (after h s c).
Proof.
  intros [H1 H2]. unfold nonce_inv. rewrite after_numSigners.
  destruct c; method_cases; split; simpl; intros; simplify_eq;
    eauto; try done;
    try (by apply H1); try (by apply H2);
    try (match goal with H : is_Some None |- _ => by destruct H end);
    try (exfalso; auto; fail);
    match goal with
    | Hn : ?x = None, Hs : is_Some ?x |- _ =>
        rewrite Hn in Hs; by destruct Hs
    end.
Qed.

Lemma run_inv s calls : nonce_inv h s → nonce_inv h (run h s calls).
Proof.
  revert s. induction calls as [|c calls IH]; intros s H; simpl; [done|].
  by apply IH, after_inv.
Qed.

End session_facts.

(** Sessions of the integer model: two signers with keys 3 and 5, and a
    single signer with key 3. *)
Module Zsessions.
Import Zmodel.

Definition heap2 : @heap curve := {[ 1%positive := [3; 5] ]}.
Definition heap1 : @heap curve := {[ 1%positive := [3] ]}.

Definition ctx2 : @Context curve lib :=
  @Build_Context curve lib 3 3 1%positive 362 1 [Byte.x9a] [] true.
Definition ctx1 : @Context curve lib :=
  @Build_Context curve lib 3 3 1%positive 357 (-1) [Byte.x8c] [] true.

Definition nonces : @Nonces curve lib :=
  @Build_Nonces curve lib 7 [Byte.x07].

(** The session [ctx2.NewSession()] returns. *)
Definition fresh2 : @Session curve lib :=
  @Build_Session curve lib ctx2 (Some nonces) [[Byte.x07]] None
    (replicate 32 Byte.x00) None [] None.

(** The session [ctx1.NewSession()] returns. *)
Definition fresh1 : @Session curve lib :=
  @Build_Session curve lib ctx1 (Some nonces) [[Byte.x07]] None
    (replicate 32 Byte.x00) None [] None.

(** [fresh2] after the other signer's nonce is registered. *)
Definition ready2 : @Session curve lib :=
  @run curve lib heap2 fresh2 [CallRegisterPubNonce [Byte.x09]].

Definition message : list byte := replicate 31 Byte.x00 ++ [Byte.x02].

(** [ready2] after signing [message]. *)
Definition signed2 : @Session curve lib :=
  @run curve lib heap2 ready2 [CallSign message []].

End Zsessions.

Lemma Zsessions_ctx2 :
  @NewContext Zmodel.curve Zmodel.sorter Zmodel.lib
    Zsessions.heap2 3 1%positive true []
  = (Zsessions.heap2, Ok Zsessions.ctx2).
Proof. reflexivity. Qed.

Lemma Zsessions_ctx1 :
  @NewContext Zmodel.curve Zmodel.sorter Zmodel.lib
    Zsessions.heap1 3 1%positive true []
  = (Zsessions.heap1, Ok Zsessions.ctx1).
Proof. reflexivity. Qed.

Lemma Zsessions_fresh2 :
  NewSession Zsessions.ctx2 (Ok Zsessions.nonces) = Ok Zsessions.fresh2.
Proof. reflexivity. Qed.

Lemma Zsessions_fresh1 :
  NewSession Zsessions.ctx1 (Ok Zsessions.nonces) = Ok Zsessions.fresh1.
Proof. reflexivity. Qed.

(** C1. After a call to [Sign] has succeeded on a session, and whatever
    calls were made on the session since, [Sign] with any message returns
    [ErrSigningContextReuse]; the session still stores the partial
    signature of the first call as [ourSig] and as the entry the first call
    appended to [sigs], and the second call changes neither. *)
Theorem Sign_twice_returns_SigningContextReuse
    {B : Btcec} {L : Musig2Lib B}
    (h : heap) (s s1 : Session) (m : list byte) (signOpts : list SignOption)
    (sig : PartialSignature) (calls : list call)
    (m' : list byte) (signOpts' : list SignOption) :
  SessionSign h s m signOpts = (s1, Ret (Ok sig)) →
  let s2 := run h s1 calls in
  let s3 := fst (SessionSign h s2 m' signOpts') in
  snd (SessionSign h s2 m' signOpts') = Ret (Err ErrSigningContextReuse) ∧
  ourSig s1 = Some sig ∧ sigs s1 = sigs s ++ [sig] ∧
  ourSig s2 = Some sig ∧ sigs s1 `prefix_of` sigs s2 ∧
  ourSig s3 = Some sig ∧ sigs s3 = sigs s2.
Proof.
  intros Hsign s2 s3.
  assert (localNonces s1 = None ∧ ourSig s1 = Some sig
          ∧ sigs s1 = sigs s ++ [sig]) as (Hn & Ho & Hs).
  { unfold SessionSign in Hsign. simpl in Hsign.
    repeat case_match; simplify_eq; done. }
  assert (localNonces s2 = None) as Hn2 by by apply run_localNonces_None.
  assert (ourSig s2 = Some sig) as Ho2.
  { unfold s2. by rewrite run_ourSig. }
  assert (SessionSign h s2 m' signOpts'
          = (set_msg m' s2, Ret (Err ErrSigningContextReuse))) as E.
  { unfold SessionSign. simpl. by rewrite Hn2. }
  unfold s3. rewrite E. simpl.
  repeat split; try done. apply run_sigs_prefix.
Qed.

Lemma Sign_twice_returns_SigningContextReuse_witness :
  snd (@SessionSign Zmodel.curve Zmodel.lib Zsessions.heap2
         Zsessions.signed2 [Byte.x05] [])
  = Ret (Err ErrSigningContextReuse) ∧
  ourSig Zsessions.signed2 = Some (13, 1801) ∧
  sigs Zsessions.signed2 = [(13, 1801)].
Proof.
  pose proof (@Sign_twice_returns_SigningContextReuse
                Zmodel.curve Zmodel.lib Zsessions.heap2
                Zsessions.ready2 Zsessions.signed2 Zsessions.message []
                (13, 1801) [] [Byte.x05] [] eq_refl) as H.
  cbv zeta in H. destruct H as (H1 & H2 & H3 & _).
  split; [exact H1|]. split; [exact H2|exact H3].
Defined.

(** C2. On a session made by [NewSession], after any calls: [Sign] returns
    [ErrCombinedNonceUnavailable] whenever the combined nonce is not
    computed, which is the case whenever fewer nonces are registered than
    there are signers; and whenever [Sign] succeeds it has set the local
    nonce to nil, recorded the message, stored the partial signature as
    [ourSig] and appended it to [sigs]. *)
Theorem Sign_needs_combined_nonce_and_consumes_nonce
    {B : Btcec} {L : Musig2Lib B}
    (h : heap) (c : Context) (gen : result Nonces) (s0 : Session)
    (calls : list call) (m : list byte) (signOpts : list SignOption) :
  NewSession c gen = Ok s0 →
  let s := run h s0 calls in
  (combinedNonce s = None →
   snd (SessionSign h s m signOpts) = Ret (Err ErrCombinedNonceUnavailable)) ∧
  ((length (pubNonces s) < numSigners h s)%nat → combinedNonce s = None) ∧
  (∀ s' sig, SessionSign h s m signOpts = (s', Ret (Ok sig)) →
     localNonces s' = None ∧ msg s' = m ∧ ourSig s' = Some sig ∧
     sigs s' = sigs s ++ [sig]).
Proof.
  intros Hnew s.
  assert (nonce_inv h s) as [H1 H2].
  { apply run_inv. by eapply NewSession_inv. }
  split; [|split].
  - intros Hc. unfold SessionSign. simpl.
    destruct (localNonces s) eqn:E.
    + by rewrite Hc.
    + destruct (H1 eq_refl) as [x Hx]. congruence.
  - intros Hlt. destruct (combinedNonce s) eqn:E; [|done].
    rewrite H2 in Hlt by eauto. lia.
  - intros s' sig Hsign. unfold SessionSign in Hsign. simpl in Hsign.
    repeat case_match; simplify_eq; done.
Qed.

Lemma Sign_needs_combined_nonce_and_consumes_nonce_witness :
  snd (@SessionSign Zmodel.curve Zmodel.lib Zsessions.heap2
         Zsessions.fresh2 Zsessions.message [])
  = Ret (Err ErrCombinedNonceUnavailable) ∧
  (localNonces Zsessions.signed2 = None ∧
   msg Zsessions.signed2 = Zsessions.message ∧
   ourSig Zsessions.signed2 = Some (13, 1801) ∧
   sigs Zsessions.signed2 = sigs Zsessions.ready2 ++ [(13, 1801)]).
Proof.
  split.
  - exact (proj1 (@Sign_needs_combined_nonce_and_consumes_nonce
                    Zmodel.curve Zmodel.lib Zsessions.heap2
                    Zsessions.ctx2 (Ok Zsessions.nonces) Zsessions.fresh2
                    [] Zsessions.message [] eq_refl) eq_refl).
  - exact (proj2 (proj2 (@Sign_needs_combined_nonce_and_consumes_nonce
                    Zmodel.curve Zmodel.lib Zsessions.heap2
                    Zsessions.ctx2 (Ok Zsessions.nonces) Zsessions.fresh2
                    [CallRegisterPubNonce [Byte.x09]] Zsessions.message []
                    eq_refl)) Zsessions.signed2 (13, 1801) eq_refl).
Defined.

(** C3. [CombineSig] returns [ErrAlredyHaveAllSigs] and changes nothing
    when the signature count already equals the signer count; otherwise it
    appends the partial signature. When the count thereby reaches the
    signer count and the session holds its local partial signature, it
    combines the signatures and verifies the result: it stores the final
    signature and returns true when the result verifies, and returns
    [ErrFinalSigInvalid] with the stored final signature unchanged when it
    does not. When the count reaches the signer count on a session without
    a local partial signature ([ourSig] is nil), the call panics after
    appending. *)
Theorem CombineSig_behaviour
    {B : Btcec} {L : Musig2Lib B}
    (h : heap) (s : Session) (sig : PartialSignature) :
  let n := numSigners h s in
  let appended := set_sigs (sigs s ++ [sig]) s in
  (length (sigs s) = n →
   CombineSig h s sig = (s, Ret (false, Some ErrAlredyHaveAllSigs))) ∧
  (length (sigs s) ≠ n → S (length (sigs s)) ≠ n →
   CombineSig h s sig = (appended, Ret (false, None))) ∧
  (length (sigs s) ≠ n → S (length (sigs s)) = n →
   ∀ our, ourSig s = Some our →
   let final :=
     CombineSigs (sig_R our) (sigs s ++ [sig]) (combineOptions h s) in
   if Verify final (msg s) (combinedKey (ctx s))
   then CombineSig h s sig
        = (set_finalSig (Some final) appended, Ret (true, None))
   else CombineSig h s sig
        = (appended, Ret (false, Some ErrFinalSigInvalid))
        ∧ finalSig appended = finalSig s) ∧
  (length (sigs s) ≠ n → S (length (sigs s)) = n → ourSig s = None →
   CombineSig h s sig = (appended, Panic)).
Proof.
  intros n appended.
  unfold CombineSig. fold n.
  assert (length (sigs appended) = S (length (sigs s))) as Hlen.
  { unfold appended. simpl. rewrite length_app. simpl. lia. }
  assert (numSigners h appended = n) as Hn by done.
  split; [|split; [|split]].
  - intros E. by rewrite bool_decide_eq_true_2.
  - intros E1 E2. rewrite bool_decide_eq_false_2 by done.
    fold appended. rewrite Hn, Hlen. by rewrite bool_decide_eq_false_2.
  - intros E1 E2 our Hour. rewrite bool_decide_eq_false_2 by done.
    fold appended. rewrite Hn, Hlen. rewrite bool_decide_eq_true_2 by done.
    change (ourSig appended) with (ourSig s). rewrite Hour.
    set (final :=
           CombineSigs (sig_R our) (sigs s ++ [sig]) (combineOptions h s)).
    change (CombineSigs _ (sigs appended) _) with final.
    change (Verify final (msg appended) (combinedKey (ctx appended)))
      with (Verify final (msg s) (combinedKey (ctx s))).
    by destruct (Verify final (msg s) (combinedKey (ctx s))).
  - intros E1 E2 Hour. rewrite bool_decide_eq_false_2 by done.
    fold appended. rewrite Hn, Hlen. rewrite bool_decide_eq_true_2 by done.
    change (ourSig appended) with (ourSig s). by rewrite Hour.
Qed.

Lemma CombineSig_behaviour_witness :
  NewSession Zsessions.ctx1 (Ok Zsessions.nonces) = Ok Zsessions.fresh1 ∧
  @CombineSig Zmodel.curve Zmodel.lib Zsessions.heap1 Zsessions.fresh1 (5, 9)
  = (@set_sigs Zmodel.curve Zmodel.lib [(5, 9)] Zsessions.fresh1, Panic) ∧
  snd (@CombineSig Zmodel.curve Zmodel.lib Zsessions.heap2
         Zsessions.signed2 (651949, 9)) = Ret (true, None) ∧
  snd (@CombineSig Zmodel.curve Zmodel.lib Zsessions.heap2
         Zsessions.signed2 (5, 9)) = Ret (false, Some ErrFinalSigInvalid).
Proof.
  split; [reflexivity|]. split; [|split].
  - assert (length (sigs Zsessions.fresh1)
            ≠ numSigners Zsessions.heap1 Zsessions.fresh1) as Hne
      by (vm_compute; discriminate).
    exact (proj2 (proj2 (proj2
             (@CombineSig_behaviour Zmodel.curve Zmodel.lib
                Zsessions.heap1 Zsessions.fresh1 (5, 9))))
             Hne eq_refl eq_refl).
  - assert (length (sigs Zsessions.signed2)
            ≠ numSigners Zsessions.heap2 Zsessions.signed2) as Hne
      by (vm_compute; discriminate).
    pose proof (proj1 (proj2 (proj2
             (@CombineSig_behaviour Zmodel.curve Zmodel.lib
                Zsessions.heap2 Zsessions.signed2 (651949, 9))))
             Hne eq_refl (13, 1801) eq_refl) as H.
    cbv zeta in H.
    change (Verify _ (msg Zsessions.signed2)
              (combinedKey (ctx Zsessions.signed2))) with true in H.
    cbv iota in H. by rewrite H.
  - reflexivity.
Defined.

(** C4. On a session whose registered-nonce count equals the signer
    count, [RegisterPubNonce] changes nothing and returns [(false, nil)]:
    no error is returned, [ErrAlredyHaveAllNonces] least of all, and the
    boolean is false. That is the answer of every call that does not
    complete the set, an early registration as much as a late one, so the
    late call reports nothing of the set being complete already. *)
Theorem RegisterPubNonce_after_completion_is_noop
    {B : Btcec} {L : Musig2Lib B}
    (h : heap) (s : Session) (nonce : list byte) :
  (length (pubNonces s) = numSigners h s →
   RegisterPubNonce h s nonce = (s, Ret (false, None))) ∧
  (S (length (pubNonces s)) ≠ numSigners h s →
   snd (RegisterPubNonce h s nonce) = Ret (false, None)).
Proof.
  unfold RegisterPubNonce. split.
  - intros E. by rewrite bool_decide_eq_true_2.
  - intros E. case_bool_decide; [done|].
    cbn [pubNonces set_pubNonces]. rewrite length_app. simpl.
    rewrite bool_decide_eq_false_2; [done|].
    unfold numSigners in *. simpl. lia.
Qed.

Lemma RegisterPubNonce_after_completion_is_noop_witness :
  (length (pubNonces Zsessions.ready2)
   = numSigners Zsessions.heap2 Zsessions.ready2 ∧
   @RegisterPubNonce Zmodel.curve Zmodel.lib Zsessions.heap2
     Zsessions.ready2 [Byte.x0b] = (Zsessions.ready2, Ret (false, None))) ∧
  (S (length (pubNonces Zsessions.ready2))
   ≠ numSigners Zsessions.heap2 Zsessions.ready2 ∧
   snd (@RegisterPubNonce Zmodel.curve Zmodel.lib Zsessions.heap2
          Zsessions.ready2 [Byte.x0b]) = Ret (false, None)).
Proof.
  assert (length (pubNonces Zsessions.ready2)
          = numSigners Zsessions.heap2 Zsessions.ready2) as Hall
    by reflexivity.
  assert (S (length (pubNonces Zsessions.ready2))
          ≠ numSigners Zsessions.heap2 Zsessions.ready2) as Hnot
    by (rewrite <- Hall; apply Nat.neq_succ_diag_l).
  split; (split; [assumption|]).
  - exact (proj1 (@RegisterPubNonce_after_completion_is_noop
                    Zmodel.curve Zmodel.lib Zsessions.heap2
                    Zsessions.ready2 [Byte.x0b]) Hall).
  - exact (proj2 (@RegisterPubNonce_after_completion_is_noop
                    Zmodel.curve Zmodel.lib Zsessions.heap2
                    Zsessions.ready2 [Byte.x0b]) Hnot).
Defined.

(** C9. The session methods are not total: [PublicNonce] panics on a
    session on which [Sign] has succeeded (the local nonces are nil), and
    [CombineSig] panics when the signature it appends brings the count to
    the signer count on a session without a local partial signature
    ([ourSig] is nil). *)
Theorem Session_methods_panic
    {B : Btcec} {L : Musig2Lib B} (h : heap) :
  (∀ s m signOpts sig,
     snd (SessionSign h s m signOpts) = Ret (Ok sig) →
     panics h (after h s (CallSign m signOpts)) CallPublicNonce = true) ∧
  (∀ s sig,
     ourSig s = None → S (length (sigs s)) = numSigners h s →
     panics h s (CallCombineSig sig) = true).
Proof.
  split.
  - intros s m signOpts sig Hsign.
    assert (localNonces (after h s (CallSign m signOpts)) = None) as Hn.
    { simpl. unfold SessionSign in *. simpl in *.
      repeat case_match; simplify_eq; done. }
    simpl in *. unfold PublicNonce. by rewrite Hn.
  - intros s sig Hour Hlen. simpl. unfold CombineSig.
    rewrite bool_decide_eq_false_2 by lia.
    assert (length (sigs (set_sigs (sigs s ++ [sig]) s))
            = numSigners h (set_sigs (sigs s ++ [sig]) s)) as E.
    { simpl. rewrite length_app. simpl. unfold numSigners in *. simpl. lia. }
    rewrite (bool_decide_eq_true_2 _ E).
    change (ourSig (set_sigs (sigs s ++ [sig]) s)) with (ourSig s).
    by rewrite Hour.
Qed.

Lemma Session_methods_panic_witness :
  @panics Zmodel.curve Zmodel.lib Zsessions.heap2
    (@run Zmodel.curve Zmodel.lib Zsessions.heap2 Zsessions.fresh2
       [CallRegisterPubNonce [Byte.x09]; CallSign Zsessions.message []])
    CallPublicNonce = true ∧
  @panics Zmodel.curve Zmodel.lib Zsessions.heap1
    (@run Zmodel.curve Zmodel.lib Zsessions.heap1 Zsessions.fresh1 [])
    (@CallCombineSig Zmodel.curve Zmodel.lib (5, 9)) = true.
Proof.
  destruct (@Session_methods_panic Zmodel.curve Zmodel.lib Zsessions.heap2)
    as [H1 _].
  destruct (@Session_methods_panic Zmodel.curve Zmodel.lib Zsessions.heap1)
    as [_ H2].
  split.
  - exact (H1 Zsessions.ready2 Zsessions.message [] (13, 1801) eq_refl).
  - exact (H2 Zsessions.fresh1 (5, 9) eq_refl eq_refl).
Defined.

(** * Further properties of the code *)

(** ** silentpayments.go *)

Section psbt_facts.
Local Open Scope nat_scope.

Lemma subslice_in_range s lo hi :
  lo ≤ hi → hi ≤ length s → subslice s lo hi = Ret (take (hi - lo) (drop lo s)).
Proof. intros. unfold subslice. by rewrite bool_decide_eq_true_2. Qed.

Lemma copy_at_whole dst src :
  length dst = length src → copy_at 0 dst src = src.
Proof.
  intros E. unfold copy_at. simpl.
  rewrite Nat.sub_0_r, E, Nat.min_id, firstn_all.
  rewrite drop_ge by lia. apply app_nil_r.
Qed.

Lemma LittleEndian_Uint32_four b :
  length b = 4 → ∃ v, LittleEndian_Uint32 b = Ret v.
Proof.
  destruct b as [|b0 [|b1 [|b2 [|b3 [|]]]]]; try done. intros _. by eexists.
Qed.

Lemma readOutPoint_step keyData ops k :
  k * 36 + 36 ≤ length keyData →
  ops !! k = Some zeroOutPoint →
  readOutPoint keyData ops (k * 36) = Ret (<[k := decodeAt keyData k]> ops).
Proof.
  intros Hlen Hk. unfold readOutPoint.
  change outPointSize with 36. change sha256_Size with 32.
  change uint32Size with 4.
  rewrite Nat.div_mul by done. rewrite Hk.
  rewrite !subslice_in_range by lia.
  replace (k * 36 + 32 - k * 36) with 32 by lia.
  replace (k * 36 + 32 + 4 - (k * 36 + 32)) with 4 by lia.
  destruct (LittleEndian_Uint32_four (take 4 (drop (k * 36 + 32) keyData)))
    as [v Hv].
  { rewrite length_take, length_drop. lia. }
  unfold decodeAt. rewrite Hv. simpl.
  rewrite copy_at_whole; [done|].
  rewrite length_take, length_drop. simpl length. lia.
Qed.

Lemma read_loop keyData m k done :
  length done = k →
  (k + m) * 36 ≤ length keyData →
  for_each (readOutPoint keyData) (done ++ replicate m zeroOutPoint)
    ((λ j, j * 36) <$> seq k m)
  = Ret (done ++ (decodeAt keyData <$> seq k m)).
Proof.
  revert k done. induction m as [|m IH]; intros k done Hk Hlen; simpl.
  { done. }
  rewrite readOutPoint_step.
  - rewrite <- Hk at 1. rewrite insert_app_r_alt by lia.
    rewrite Nat.sub_diag. simpl.
    rewrite (cons_middle (decodeAt keyData k)), app_assoc.
    rewrite IH; [by rewrite <- app_assoc| |lia].
    rewrite length_app. simpl. lia.
  - lia.
  - rewrite lookup_app_r by lia. by rewrite Hk, Nat.sub_diag.
Qed.

Lemma loop_indices_36 n :
  loop_indices (n * 36) 36 = (λ j, j * 36) <$> seq 0 n.
Proof.
  unfold loop_indices. do 2 f_equal.
  replace (n * 36 + 36 - 1) with (35 + n * 36) by lia.
  rewrite Nat.div_add by done. done.
Qed.

(** The loop of the two readers, on key data of a well-formed length. *)
Lemma read_outPoints keyData n :
  length keyData = 33 + n * 36 →
  for_each (readOutPoint keyData)
    (replicate ((length keyData - PubKeyBytesLenCompressed) / outPointSize)
       zeroOutPoint)
    (loop_indices (length keyData - PubKeyBytesLenCompressed) outPointSize)
  = Ret (decodeAt keyData <$> seq 0 n).
Proof.
  intros E. change PubKeyBytesLenCompressed with 33.
  change outPointSize with 36.
  replace (length keyData - 33) with (n * 36) by lia.
  rewrite Nat.div_mul by done. rewrite loop_indices_36.
  apply (read_loop keyData n 0 []); [done|lia].
Qed.

Lemma length_multiple (keyData : list byte) :
  33 ≤ length keyData → (length keyData - 33) `mod` 36 = 0 →
  length keyData = 33 + (length keyData - 33) / 36 * 36.
Proof.
  intros H1 H2.
  pose proof (Nat.div_mod (length keyData - 33) 36). lia.
Qed.

End psbt_facts.

(** X1. [ReadSilentPaymentShare] and [ReadSilentPaymentDLEQ] never panic.
    They return [ErrInvalidKeyData] when the key data is shorter than 33
    bytes or the rest is not a multiple of 36 bytes, otherwise
    [ErrInvalidPsbtFormat] when the value is not 33 (for a proof: 64) bytes
    long, and otherwise a share or proof whose scan key is the first 33
    bytes of the key data, whose value is the value given, and whose
    outpoint [k] is decoded from the 36 bytes of the key data at offset
    [36 * k], counted from the start of the key data and not from the end
    of the scan key. *)
Theorem ReadSilentPayment_result (keyData value : list byte) :
  let n := ((length keyData - 33) / 36)%nat in
  let malformed :=
    (length keyData < 33)%nat ∨ ((length keyData - 33) `mod` 36 ≠ 0)%nat in
  ReadSilentPaymentShare keyData value =
    Ret (if bool_decide malformed then Failed ErrInvalidKeyData
         else if bool_decide (length value ≠ 33%nat)
         then Failed ErrInvalidPsbtFormat
         else Parsed {| share_ScanKey := take 33 keyData;
                        share_OutPoints := decodeAt keyData <$> seq 0 n;
                        share_Share := value |}) ∧
  ReadSilentPaymentDLEQ keyData value =
    Ret (if bool_decide malformed then Failed ErrInvalidKeyData
         else if bool_decide (length value ≠ 64%nat)
         then Failed ErrInvalidPsbtFormat
         else Parsed {| dleq_ScanKey := take 33 keyData;
                        dleq_OutPoints := decodeAt keyData <$> seq 0 n;
                        dleq_Proof := value |}).
Proof.
  intros n malformed.
  unfold ReadSilentPaymentShare, ReadSilentPaymentDLEQ.
  change PubKeyBytesLenCompressed with 33%nat.
  change outPointSize with 36%nat.
  destruct (decide (length keyData < 33)%nat) as [Hshort|Hlong].
  { rewrite !(bool_decide_eq_true_2 (length keyData < 33)%nat) by done.
    rewrite (bool_decide_eq_true_2 malformed) by by left. done. }
  rewrite !(bool_decide_eq_false_2 (length keyData < 33)%nat) by done.
  destruct (decide ((length keyData - 33) `mod` 36 ≠ 0)%nat) as [Hmod|Hmod].
  { rewrite !(bool_decide_eq_true_2 (_ `mod` 36 ≠ 0)%nat) by done.
    rewrite (bool_decide_eq_true_2 malformed) by by right. done. }
  rewrite !(bool_decide_eq_false_2 (_ `mod` 36 ≠ 0)%nat) by done.
  rewrite (bool_decide_eq_false_2 malformed) by (intros [?|?]; done).
  assert (length keyData = 33 + n * 36)%nat as Hlen.
  { apply length_multiple; lia. }
  pose proof (read_outPoints keyData n Hlen) as Hloop.
  change PubKeyBytesLenCompressed with 33%nat in Hloop.
  change outPointSize with 36%nat in Hloop.
  rewrite Hloop, subslice_in_range by lia.
  split; by repeat case_bool_decide.
Qed.

Section serialize_facts.
Local Open Scope nat_scope.

Lemma serialize_fold init outPoints :
  foldl (λ keyData outPoint,
           (keyData ++ Hash outPoint)
             ++ LittleEndian_PutUint32 (Index outPoint))
        init outPoints
  = init ++ concat ((λ op, Hash op ++ LittleEndian_PutUint32 (Index op))
                      <$> outPoints).
Proof.
  revert init. induction outPoints as [|op ops IH]; intros init; simpl.
  - by rewrite app_nil_r.
  - rewrite IH. by rewrite <- !app_assoc.
Qed.

Lemma serialized_outPoints_length outPoints :
  (∀ op, op ∈ outPoints → length (Hash op) = 32) →
  length (concat ((λ op, Hash op ++ LittleEndian_PutUint32 (Index op))
                    <$> outPoints)) = length outPoints * 36.
Proof.
  induction outPoints as [|op ops IH]; intros H; [done|].
  rewrite fmap_cons. cbn [concat]. rewrite !length_app, IH, (H op).
  - change (length (LittleEndian_PutUint32 _)) with 4. simpl. lia.
  - apply list_elem_of_here.
  - intros op' Hop'. by apply H, list_elem_of_further.
Qed.

Lemma ReadSilentPaymentInfo_eq value :
  ReadSilentPaymentInfo value =
    Ret (if bool_decide (length value ≠ 66)
         then Failed ErrInvalidPsbtFormat
         else Parsed {| info_ScanKey := take 33 value;
                        info_SpendKey := drop 33 value |}).
Proof.
  unfold ReadSilentPaymentInfo. change (PubKeyBytesLenCompressed * 2) with 66.
  change PubKeyBytesLenCompressed with 33.
  case_bool_decide as H; [done|].
  rewrite !subslice_in_range by lia. simpl.
  do 3 f_equal. rewrite take_ge; [done|]. rewrite length_drop. lia.
Qed.

(** The two readers on key data of a well-formed length. *)
Lemma read_well_formed keyData value n :
  length keyData = 33 + n * 36 →
  ReadSilentPaymentShare keyData value =
    Ret (if bool_decide (length value ≠ 33)
         then Failed ErrInvalidPsbtFormat
         else Parsed {| share_ScanKey := take 33 keyData;
                        share_OutPoints := decodeAt keyData <$> seq 0 n;
                        share_Share := value |}) ∧
  ReadSilentPaymentDLEQ keyData value =
    Ret (if bool_decide (length value ≠ 64)
         then Failed ErrInvalidPsbtFormat
         else Parsed {| dleq_ScanKey := take 33 keyData;
                        dleq_OutPoints := decodeAt keyData <$> seq 0 n;
                        dleq_Proof := value |}).
Proof.
  intros Hlen. unfold ReadSilentPaymentShare, ReadSilentPaymentDLEQ.
  rewrite (read_outPoints keyData n Hlen).
  change PubKeyBytesLenCompressed with 33. change outPointSize with 36.
  rewrite !(bool_decide_eq_false_2 (length keyData < 33)) by lia.
  replace (length keyData - 33) with (n * 36) by lia.
  rewrite Nat.Div0.mod_mul.
  rewrite !(bool_decide_eq_false_2 (0 ≠ 0)) by (intros ?; done).
  rewrite subslice_in_range by lia.
  split; by repeat case_bool_decide.
Qed.

End serialize_facts.

(** X2. Reading back what [SerializeSilentPaymentShare] wrote, for a share
    whose scan key and value are 33 bytes long: the read succeeds and
    restores the scan key, the value and the number of outpoints. It
    restores the share itself when the share has no outpoints; when it has,
    the hash of the first outpoint read back is the first 32 bytes of the
    scan key, not the hash that was serialized. *)
Theorem SerializeSilentPaymentShare_then_Read (share : SilentPaymentShare) :
  share_sized share →
  let keyData := fst (SerializeSilentPaymentShare share) in
  let value := snd (SerializeSilentPaymentShare share) in
  ∃ share',
    ReadSilentPaymentShare keyData value = Ret (Parsed share') ∧
    share_ScanKey share' = share_ScanKey share ∧
    share_Share share' = share_Share share ∧
    length (share_OutPoints share') = length (share_OutPoints share) ∧
    (share_OutPoints share = [] → share' = share) ∧
    (∀ op', share_OutPoints share' !! 0%nat = Some op' →
            Hash op' = take 32 (share_ScanKey share)).
Proof.
  intros (Hscan & Hval & Hhash) keyData value.
  assert (keyData = share_ScanKey share
                    ++ concat ((λ op, Hash op
                                      ++ LittleEndian_PutUint32 (Index op))
                                 <$> share_OutPoints share)) as EkeyData.
  { unfold keyData, SerializeSilentPaymentShare. simpl.
    by rewrite serialize_fold. }
  assert (value = share_Share share) as Evalue by done.
  clearbody keyData value.
  assert (length keyData = 33 + length (share_OutPoints share) * 36)%nat
    as Hlen.
  { rewrite EkeyData, length_app, serialized_outPoints_length by done. lia. }
  destruct (read_well_formed keyData value
              (length (share_OutPoints share)) Hlen) as [Hread _].
  rewrite bool_decide_eq_false_2 in Hread by (rewrite Evalue; lia).
  assert (take 33 keyData = share_ScanKey share) as Escan.
  { rewrite EkeyData. by apply take_app_length'. }
  rewrite Escan, Evalue in Hread. rewrite Evalue.
  eexists. split; [exact Hread|]. simpl.
  split; [done|]. split; [done|].
  split; [by rewrite length_fmap, length_seq|]. split.
  - intros Hnil. rewrite Hnil. simpl. destruct share. simpl in *. by subst.
  - intros op' Hop'. destruct (share_OutPoints share) as [|op ops];
      [done|]. simpl in Hop'. injection Hop' as <-. simpl.
    rewrite drop_0, EkeyData.
    rewrite take_app_le by lia. done.
Qed.

(** A share with one outpoint, and an info whose two keys are 33 bytes. *)
Module PsbtExamples.

Definition outPoint : OutPoint :=
  {| Hash := replicate 32 Byte.x02; Index := 5 |}.

Definition share : SilentPaymentShare :=
  {| share_ScanKey := replicate 33 Byte.x01;
     share_OutPoints := [outPoint];
     share_Share := replicate 33 Byte.x09 |}.

Definition info : SilentPaymentInfo :=
  {| info_ScanKey := replicate 33 Byte.x01;
     info_SpendKey := replicate 33 Byte.x03 |}.

End PsbtExamples.

Lemma SerializeSilentPaymentShare_then_Read_witness :
  ∃ share',
    ReadSilentPaymentShare
      (fst (SerializeSilentPaymentShare PsbtExamples.share))
      (snd (SerializeSilentPaymentShare PsbtExamples.share))
    = Ret (Parsed share') ∧
    share_ScanKey share' = share_ScanKey PsbtExamples.share ∧
    share_Share share' = share_Share PsbtExamples.share ∧
    length (share_OutPoints share')
    = length (share_OutPoints PsbtExamples.share) ∧
    (share_OutPoints PsbtExamples.share = [] → share' = PsbtExamples.share) ∧
    (∀ op', share_OutPoints share' !! 0%nat = Some op' →
            Hash op' = take 32 (share_ScanKey PsbtExamples.share)).
Proof.
  apply (SerializeSilentPaymentShare_then_Read PsbtExamples.share).
  split; [reflexivity|]. split; [reflexivity|].
  intros op Hop. apply list_elem_of_singleton in Hop. by subst.
Defined.

(** X3. [ReadSilentPaymentInfo] never panics: it returns
    [ErrInvalidPsbtFormat] unless the value is 66 bytes long, and otherwise
    the info whose scan key is the first 33 bytes and whose spend key is the
    rest. Serializing an info that was read gives back the value read.
    Reading a serialized info gives back the info exactly when its two keys
    are each 33 bytes long: the serialization does not record where the
    scan key ends. *)
Theorem SilentPaymentInfo_round_trip :
  (∀ value,
     ReadSilentPaymentInfo value =
       Ret (if bool_decide (length value ≠ 66%nat)
            then Failed ErrInvalidPsbtFormat
            else Parsed {| info_ScanKey := take 33 value;
                           info_SpendKey := drop 33 value |})) ∧
  (∀ value info,
     ReadSilentPaymentInfo value = Ret (Parsed info) →
     SerializeSilentPaymentInfo info = value) ∧
  (∀ info,
     ReadSilentPaymentInfo (SerializeSilentPaymentInfo info)
     = Ret (Parsed info)
     ↔ length (info_ScanKey info) = 33%nat ∧
       length (info_SpendKey info) = 33%nat).
Proof.
  split; [apply ReadSilentPaymentInfo_eq|]. split.
  - intros value info. rewrite ReadSilentPaymentInfo_eq.
    case_bool_decide; [done|]. intros [= <-].
    unfold SerializeSilentPaymentInfo. simpl. apply take_drop.
  - intros [scan spend]. rewrite ReadSilentPaymentInfo_eq.
    unfold SerializeSilentPaymentInfo. simpl. split.
    + case_bool_decide as Hlen; [done|]. intros [= Hscan Hspend].
      rewrite length_app in Hlen.
      assert (length (take 33 (scan ++ spend)) = length scan) as E
        by by rewrite Hscan.
      rewrite length_take, length_app in E. lia.
    + intros [Hscan Hspend].
      rewrite bool_decide_eq_false_2
        by (rewrite length_app; lia).
      rewrite take_app_length', drop_app_length'; done.
Qed.

(** ** The order of outpoints and [equalOutPoints] *)

Lemma outPointEq_true a b : outPointEq a b = true ↔ a = b.
Proof.
  unfold outPointEq. rewrite andb_true_iff, bytes_Equal_true,
    bool_decide_eq_true.
  destruct a, b; simpl. split; [by intros [-> ->]|by intros [= -> ->]].
Qed.

Lemma op_le_alt a b :
  op_le a b ↔
  bytes_Compare (Hash a) (Hash b) = -1 ∨
  (Hash a = Hash b ∧ Index a ≤ Index b).
Proof.
  unfold op_le, outPointLess.
  destruct (bytes_Equal (Hash b) (Hash a)) eqn:E.
  - apply bytes_Equal_true in E. rewrite E, bytes_Compare_refl.
    rewrite bool_decide_eq_false. split; [right; split; [done|lia]|].
    intros [?|[_ ?]]; [done|lia].
  - assert (Hash b ≠ Hash a) as Hne.
    { intros Heq. apply bytes_Equal_true in Heq. congruence. }
    rewrite bool_decide_eq_false, (bytes_Compare_swap (Hash a) (Hash b)).
    destruct (bytes_Compare_range (Hash a) (Hash b)) as [H|[H|H]].
    + split; [by left|lia].
    + apply bytes_Compare_eq in H. congruence.
    + split; [lia|]. intros [?|[? _]]; [lia|congruence].
Qed.

#[local] Instance op_le_trans : Transitive op_le.
Proof.
  intros a b c. rewrite !op_le_alt.
  intros [Hab|[Hab Iab]] [Hbc|[Hbc Ibc]].
  - left. apply (bytes_Compare_lt_trans _ (Hash b)); [done|lia].
  - left. by rewrite <- Hbc.
  - left. by rewrite Hab.
  - right. split; [congruence|lia].
Qed.

#[local] Instance op_le_antisym : AntiSymm (=) op_le.
Proof.
  intros a b. rewrite !op_le_alt.
  intros [Hab|[Hab Iab]] [Hba|[Hba Iba]].
  - rewrite (bytes_Compare_swap (Hash a) (Hash b)) in Hba. lia.
  - rewrite Hba, bytes_Compare_refl in Hab. done.
  - rewrite Hab, bytes_Compare_refl in Hba. done.
  - destruct a, b; simpl in *. f_equal; [done|lia].
Qed.

#[local] Instance op_le_total : Total op_le.
Proof.
  intros a b. rewrite !op_le_alt.
  destruct (bytes_Compare_range (Hash a) (Hash b)) as [H|[H|H]].
  - by left; left.
  - apply bytes_Compare_eq in H.
    destruct (decide (Index a ≤ Index b)).
    + left; right. done.
    + right; right. split; [done|lia].
  - right; left. rewrite (bytes_Compare_swap (Hash a) (Hash b)). lia.
Qed.

#[local] Instance op_le_dec a b : Decision (op_le a b).
Proof. unfold op_le. apply _. Defined.

Lemma outPointsSorted_Sorted s : outPointsSorted s = true ↔ Sorted op_le s.
Proof.
  induction s as [|a s IH]; [split; [constructor|done]|].
  destruct s as [|b s].
  - split; [by repeat constructor|done].
  - change (outPointsSorted (a :: b :: s))
      with (negb (outPointLess b a) && outPointsSorted (b :: s)).
    rewrite andb_true_iff, negb_true_iff, IH. split.
    + intros [H1 H2]. constructor; [done|]. constructor. exact H1.
    + intros H. inversion H as [|? ? H1 H2]. by inversion H2.
Qed.

Lemma sorted_outPoints_unique s s' :
  outPointsSorted s = true → outPointsSorted s' = true → s ≡ₚ s' → s = s'.
Proof.
  rewrite !outPointsSorted_Sorted. apply (Sorted_unique op_le).
Qed.

(** A [sort.Slice] meeting its contract: merge sort. *)
Definition mergeSortSlice : GoSortSlice :=
  {| sort_Slice := merge_sort op_le;
     sort_Slice_sorted := λ s,
       proj2 (outPointsSorted_Sorted _) (Sorted_merge_sort op_le s);
     sort_Slice_perm := merge_sort_Permutation op_le |}.

Section equalOutPoints_facts.
Context {SS : GoSortSlice}.

Lemma sort_Slice_length s : length (sort_Slice s) = length s.
Proof. apply Permutation_length, sort_Slice_perm. Qed.

Lemma sort_Slice_nil : sort_Slice [] = [].
Proof. apply Permutation_nil_r, sort_Slice_perm. Qed.

Lemma separate_sym a b : separate a b → separate b a.
Proof. unfold separate. intros [?|[?|?]]; auto. Qed.

Lemma window_length arr off len :
  length (window arr off len) = (len `min` (length arr - off))%nat.
Proof. unfold window. by rewrite length_take, length_drop. Qed.

Lemma window_lookup arr off len i :
  window arr off len !! i
  = if decide (i < len)%nat then arr !! (off + i)%nat else None.
Proof.
  unfold window. case_decide.
  - by rewrite lookup_take_lt, lookup_drop.
  - by rewrite lookup_take_ge by lia.
Qed.

Lemma window_whole arr : window arr 0 (length arr) = arr.
Proof. unfold window. by rewrite drop_0, firstn_all. Qed.

(** An array is what lies before a window, the window, and what lies after
    it. *)
Lemma window_split arr off len :
  arr = take off arr ++ window arr off len ++ drop (off + len) arr.
Proof.
  unfold window. by rewrite <- (drop_drop arr len off), !take_drop.
Qed.

(** [w] written in the place of a window: the window then holds [w], and
    the elements outside it are those of the array. *)
Lemma written_window arr off len w :
  length w = length (window arr off len) →
  window (take off arr ++ w ++ drop (off + len) arr) off len = w.
Proof.
  intros Hw. rewrite window_length in Hw.
  destruct (decide (off ≤ length arr)%nat) as [Hoff|Hoff].
  - unfold window. rewrite drop_app_length'
      by (rewrite length_take; lia).
    destruct (decide (off + len ≤ length arr)%nat).
    + rewrite take_app_length' by lia. done.
    + rewrite drop_ge by lia. rewrite app_nil_r. apply take_ge. lia.
  - assert (w = []) as -> by (apply nil_length_inv; lia).
    simpl. rewrite take_ge, drop_ge by lia. rewrite app_nil_r.
    unfold window. rewrite drop_ge by lia. by rewrite take_nil.
Qed.

Lemma written_lookup arr off len w i :
  length w = length (window arr off len) →
  (i < off ∨ off + len ≤ i)%nat →
  (take off arr ++ w ++ drop (off + len) arr) !! i = arr !! i.
Proof.
  intros Hw Hi. rewrite window_length in Hw.
  destruct (decide (off ≤ length arr)%nat) as [Hoff|Hoff].
  - destruct Hi as [Hi|Hi].
    + rewrite lookup_app_l by (rewrite length_take; lia).
      by rewrite lookup_take_lt.
    + rewrite lookup_app_r by (rewrite length_take; lia).
      rewrite lookup_app_r by (rewrite length_take; lia).
      rewrite lookup_drop, length_take.
      destruct (decide (off + len ≤ length arr)%nat).
      * f_equal. lia.
      * rewrite !lookup_ge_None_2 by lia. done.
  - assert (w = []) as -> by (apply nil_length_inv; lia).
    simpl. rewrite take_ge, drop_ge by lia. by rewrite app_nil_r.
Qed.

Lemma written_perm arr off len w :
  w ≡ₚ window arr off len →
  take off arr ++ w ++ drop (off + len) arr ≡ₚ arr.
Proof.
  intros Hw. rewrite Hw. by rewrite <- window_split.
Qed.

Lemma written_elsewhere arr off len w off' len' :
  length w = length (window arr off len) →
  (off + len ≤ off' ∨ off' + len' ≤ off)%nat →
  window (take off arr ++ w ++ drop (off + len) arr) off' len'
  = window arr off' len'.
Proof.
  intros Hw Hsep. apply list_eq. intros i. rewrite !window_lookup.
  case_decide; [|done]. apply written_lookup; [done|lia].
Qed.

(** The backing arrays after [sort.Slice(a, less)]. *)
Lemma sortOutPoints_array (h : opheap) a k :
  oparray (sortOutPoints h a) k
  = if decide (k = op_array a)
    then take (op_off a) (oparray h k)
         ++ sort_Slice (opelems h a)
         ++ drop (op_off a + op_len a) (oparray h k)
    else oparray h k.
Proof.
  unfold sortOutPoints, opelems, oparray, opheap in *.
  case_decide as Hk.
  - subst k. destruct (h !! op_array a) as [arr|] eqn:E; simpl.
    + by rewrite lookup_insert_eq.
    + rewrite E. simpl. unfold window.
      rewrite !drop_nil, !take_nil, sort_Slice_nil. done.
  - destruct (h !! op_array a) as [arr|] eqn:E; simpl; [|done].
    by rewrite lookup_insert_ne.
Qed.

Lemma sortOutPoints_other (h : opheap) a k :
  k ≠ op_array a → sortOutPoints h a !! k = h !! k.
Proof.
  intros Hne. unfold sortOutPoints. destruct (h !! op_array a); [|done].
  unfold opheap in *. by rewrite lookup_insert_ne.
Qed.

Lemma sortOutPoints_array_perm (h : opheap) a k :
  oparray (sortOutPoints h a) k ≡ₚ oparray h k.
Proof.
  rewrite sortOutPoints_array. case_decide as Hk; [|done]. subst k.
  apply written_perm, sort_Slice_perm.
Qed.

(** The slice that was sorted holds its elements, sorted. *)
Lemma sortOutPoints_self (h : opheap) a :
  opelems (sortOutPoints h a) a = sort_Slice (opelems h a).
Proof.
  unfold opelems at 1. rewrite sortOutPoints_array.
  rewrite decide_True by done. apply written_window, sort_Slice_length.
Qed.

(** A slice that has nothing in common with it is as it was. *)
Lemma sortOutPoints_separate (h : opheap) a x :
  separate a x → opelems (sortOutPoints h a) x = opelems h x.
Proof.
  intros Hsep. unfold opelems at 1. rewrite sortOutPoints_array.
  case_decide as Hk; [|done].
  destruct Hsep as [Hne|Hsep]; [congruence|].
  unfold opelems. rewrite Hk.
  apply written_elsewhere; [apply sort_Slice_length|done].
Qed.

(** Every slice keeps its length. *)
Lemma sortOutPoints_length (h : opheap) a x :
  length (opelems (sortOutPoints h a) x) = length (opelems h x).
Proof.
  unfold opelems. rewrite !window_length.
  by rewrite (Permutation_length (sortOutPoints_array_perm h a _)).
Qed.

Lemma outPointsDiffer_spec a i b :
  (length a + i = length b)%nat →
  ∃ r, outPointsDiffer a i b = Ret r ∧ (r = true ↔ a = drop i b).
Proof.
  revert i. induction a as [|x a IH]; intros i Hlen; simpl.
  - exists true. split; [done|]. split; [|done]. intros _.
    rewrite drop_ge; [done|]. simpl in Hlen. lia.
  - simpl in Hlen.
    destruct (lookup_lt_is_Some_2 b i) as [bi Hbi]; [lia|].
    rewrite Hbi. rewrite (drop_S b bi i Hbi).
    destruct (outPointEq x bi) eqn:E; simpl.
    + apply outPointEq_true in E as ->.
      destruct (IH (S i)) as (r & Hr & Hiff); [lia|].
      exists r. split; [done|]. rewrite Hiff. split; [by intros ->|].
      by intros [= ->].
    + exists false. split; [done|]. split; [done|]. intros [= Hx Ha].
      assert (outPointEq bi bi = true) as E' by by apply outPointEq_true.
      congruence.
Qed.

(** The two slices after the two sorts, when they have nothing in common or
    are one slice: each holds its elements, sorted. *)
Lemma sorted_twice (h : opheap) a b :
  separate a b ∨ a = b →
  let h' := sortOutPoints (sortOutPoints h a) b in
  (opelems h' a ≡ₚ opelems h a ∧ outPointsSorted (opelems h' a) = true) ∧
  (opelems h' b ≡ₚ opelems h b ∧ outPointsSorted (opelems h' b) = true).
Proof.
  intros [Hsep | <-] h'; unfold h'.
  - split.
    + rewrite (sortOutPoints_separate _ b a) by by apply separate_sym.
      rewrite sortOutPoints_self. split;
        [apply sort_Slice_perm|apply sort_Slice_sorted].
    + rewrite sortOutPoints_self, (sortOutPoints_separate _ a b) by done.
      split; [apply sort_Slice_perm|apply sort_Slice_sorted].
  - rewrite !sortOutPoints_self. split; (split;
      [by rewrite !sort_Slice_perm|apply sort_Slice_sorted]).
Qed.

(** What [equalOutPoints] returns and leaves in the backing arrays. *)
Lemma equalOutPoints_spec (h : opheap) a b :
  let h' := fst (equalOutPoints h a b) in
  ∃ r,
    snd (equalOutPoints h a b) = Ret r ∧
    (r = true ↔ length (opelems h a) = length (opelems h b) ∧
                opelems h' a = opelems h' b) ∧
    (separate a b ∨ a = b → (r = true ↔ opelems h a ≡ₚ opelems h b)) ∧
    (length (opelems h a) ≠ length (opelems h b) → h' = h) ∧
    (length (opelems h a) = length (opelems h b) →
     outPointsSorted (opelems h' b) = true ∧
     (separate a b ∨ a = b → outPointsSorted (opelems h' a) = true)) ∧
    (separate a b ∨ a = b →
     opelems h' a ≡ₚ opelems h a ∧ opelems h' b ≡ₚ opelems h b) ∧
    (∀ k, oparray h' k ≡ₚ oparray h k) ∧
    (∀ x, separate a x → separate b x → opelems h' x = opelems h x).
Proof.
  unfold equalOutPoints. case_bool_decide as Hlen; simpl.
  { exists false. split; [done|]. split; [split; [done|by intros [? _]]|].
    split.
    - intros _. split; [done|]. intros P. by apply Permutation_length in P.
    - repeat split; try done. }
  set (h2 := sortOutPoints (sortOutPoints h a) b).
  assert (length (opelems h a) = length (opelems h b)) as Hlen' by lia.
  destruct (outPointsDiffer_spec (opelems h2 a) 0 (opelems h2 b))
    as (r & Hr & Hiff).
  { unfold h2. rewrite !sortOutPoints_length. lia. }
  rewrite drop_0 in Hiff.
  exists r. split; [done|]. split; [rewrite Hiff; tauto|]. split.
  { intros Hab. destruct (sorted_twice h a b Hab) as [[Pa Sa] [Pb Sb]].
    fold h2 in Pa, Sa, Pb, Sb. rewrite Hiff. split.
    - intros E. by rewrite <- Pa, E, Pb.
    - intros P. apply sorted_outPoints_unique; [done..|].
      by rewrite Pa, Pb. }
  split; [done|]. split.
  { intros _. split.
    - unfold h2. rewrite sortOutPoints_self. apply sort_Slice_sorted.
    - intros Hab. by destruct (sorted_twice h a b Hab) as [[_ Sa] _]. }
  split.
  { intros Hab. by destruct (sorted_twice h a b Hab) as [[Pa _] [Pb _]]. }
  split.
  - intros k. unfold h2. by rewrite !sortOutPoints_array_perm.
  - intros x Ha Hb. unfold h2. by rewrite !sortOutPoints_separate.
Qed.

End equalOutPoints_facts.

(** X4. [equalOutPoints] never panics. It returns true exactly when the
    two slices have the same length and, after [a] and then [b] have been
    sorted in place, hold the same outpoints index by index. For two slices
    with no element of a backing array in common, and for one slice given
    twice, that is exactly when they hold the same outpoints, in any order
    and with the same multiplicities, and the call leaves each of the two
    sorted, a permutation of what it held. For slices that overlap in one
    array only [b] is known to be left sorted. When the lengths differ
    nothing is changed. In every case each backing array keeps its
    elements, and a slice that has nothing in common with [a] or [b] is
    unchanged. *)
Theorem equalOutPoints_sorts_and_compares
    {SS : GoSortSlice} (h : opheap) (a b : opslice) :
  let h' := fst (equalOutPoints h a b) in
  (∃ r, snd (equalOutPoints h a b) = Ret r ∧
        (r = true ↔ length (opelems h a) = length (opelems h b) ∧
                    opelems h' a = opelems h' b) ∧
        (separate a b ∨ a = b →
         (r = true ↔ opelems h a ≡ₚ opelems h b))) ∧
  (if bool_decide (length (opelems h a) = length (opelems h b))
   then outPointsSorted (opelems h' b) = true ∧
        (separate a b ∨ a = b → outPointsSorted (opelems h' a) = true)
   else h' = h) ∧
  (separate a b ∨ a = b →
   opelems h' a ≡ₚ opelems h a ∧ opelems h' b ≡ₚ opelems h b) ∧
  (∀ k, oparray h' k ≡ₚ oparray h k) ∧
  (∀ x, separate a x → separate b x → opelems h' x = opelems h x).
Proof.
  intros h'.
  destruct (equalOutPoints_spec h a b)
    as (r & Hr & Hiff & Hperm & Hsame & Hsorted & Hkeep & Harr & Hother).
  split; [by exists r|]. split.
  - case_bool_decide as Hlen; [by apply Hsorted|by apply Hsame].
  - done.
Qed.

Lemma equalOutPoints_sorts_and_compares_witness :
  let op0 := {| Hash := replicate 32 Byte.x01; Index := 7 |} in
  let op1 := {| Hash := replicate 32 Byte.x02; Index := 0 |} in
  let h : opheap := {[ 1%positive := [op1; op0; op1; op0] ]} in
  let a := {| op_array := 1; op_off := 0; op_len := 2 |} in
  let b := {| op_array := 1; op_off := 2; op_len := 2 |} in
  separate a b ∧
  ∃ r, snd (@equalOutPoints mergeSortSlice h a b) = Ret r ∧
       (r = true ↔ opelems h a ≡ₚ opelems h b).
Proof.
  assert (separate {| op_array := 1; op_off := 0; op_len := 2 |}
                   {| op_array := 1; op_off := 2; op_len := 2 |}) as Hsep
    by (right; left; simpl; lia).
  split; [exact Hsep|].
  destruct (proj1 (@equalOutPoints_sorts_and_compares mergeSortSlice
                     {[ 1%positive :=
                          [{| Hash := replicate 32 Byte.x02; Index := 0 |};
                           {| Hash := replicate 32 Byte.x01; Index := 7 |};
                           {| Hash := replicate 32 Byte.x02; Index := 0 |};
                           {| Hash := replicate 32 Byte.x01; Index := 7 |}] ]}
                     {| op_array := 1; op_off := 0; op_len := 2 |}
                     {| op_array := 1; op_off := 2; op_len := 2 |}))
    as (r & Hr & _ & Hiff).
  exists r. split; [exact Hr|exact (Hiff (or_introl Hsep))].
Defined.

(** X17. For slices that overlap in one backing array [equalOutPoints] can
    return false although the two hold the same outpoints: over the array
    [op1, op0, op1] with [op0] before [op1], [a = arr[0:2]] and
    [b = arr[1:3]] both hold one [op0] and one [op1]; sorting [a] leaves
    [op0, op1, op1] in the array, so that [b] now holds [op1] twice, and the
    comparison fails at index 0. The array is left sorted. *)
Theorem equalOutPoints_overlapping_slices {SS : GoSortSlice} :
  let op0 := {| Hash := replicate 32 Byte.x00; Index := 0 |} in
  let op1 := {| Hash := replicate 32 Byte.x00; Index := 1 |} in
  let h : opheap := {[ 1%positive := [op1; op0; op1] ]} in
  let a := {| op_array := 1; op_off := 0; op_len := 2 |} in
  let b := {| op_array := 1; op_off := 1; op_len := 2 |} in
  opelems h a ≡ₚ opelems h b ∧
  equalOutPoints h a b = ({[ 1%positive := [op0; op1; op1] ]}, Ret false).
Proof.
  intros op0 op1 h a b.
  assert (sort_Slice [op1; op0] = [op0; op1]) as E1.
  { apply sorted_outPoints_unique;
      [apply sort_Slice_sorted|done|].
    rewrite sort_Slice_perm. apply Permutation_swap. }
  assert (sort_Slice [op1; op1] = [op1; op1]) as E2.
  { apply sorted_outPoints_unique;
      [apply sort_Slice_sorted|done|apply sort_Slice_perm]. }
  split; [apply Permutation_swap|].
  set (h1 := ({[ 1%positive := [op0; op1; op1] ]} : opheap)).
  assert (∀ arr, oparray {[ 1%positive := arr ]} 1 = arr) as Harr.
  { intros arr. unfold oparray, opheap. by rewrite lookup_singleton_eq. }
  assert (sortOutPoints h a = h1) as Ea.
  { unfold sortOutPoints, h, h1, opheap. rewrite lookup_singleton_eq.
    unfold window. simpl. rewrite E1. apply insert_singleton_eq. }
  assert (sortOutPoints h1 b = h1) as Eb.
  { unfold sortOutPoints, h1, opheap. rewrite lookup_singleton_eq.
    unfold window. simpl. rewrite E2. apply insert_singleton_eq. }
  unfold equalOutPoints, opelems.
  rewrite Ea, Eb. unfold h, h1. simpl. rewrite !Harr. unfold window. done.
Qed.

Section EqualKey_facts.
Context {SS : GoSortSlice}.

(** The outpoints [EqualKey] leaves in the two values, and its result. *)
Lemma EqualKey_outPoints (la lb : list OutPoint) :
  let h : opheap := <[1%positive := la]> (<[2%positive := lb]> ∅) in
  let a := whole 1 (length la) in
  let b := whole 2 (length lb) in
  let la' := opelems (fst (equalOutPoints h a b)) a in
  let lb' := opelems (fst (equalOutPoints h a b)) b in
  (∃ r, snd (equalOutPoints h a b) = Ret r ∧ (r = true ↔ la ≡ₚ lb)) ∧
  la' ≡ₚ la ∧ lb' ≡ₚ lb ∧
  (length la = length lb →
   outPointsSorted la' = true ∧ outPointsSorted lb' = true) ∧
  (length la ≠ length lb → la' = la ∧ lb' = lb).
Proof.
  intros h a b la' lb'.
  assert (separate a b ∨ a = b) as Hab by (by left; left).
  assert (opelems h a = la) as Ea by apply window_whole.
  assert (opelems h b = lb) as Eb by apply window_whole.
  destruct (equalOutPoints_spec h a b)
    as (r & Hr & _ & Hiff & Hsame & Hsorted & Hperm & _).
  specialize (Hiff Hab). destruct (Hperm Hab) as [Pa Pb].
  rewrite Ea, Eb in *.
  split; [by exists r|]. split; [done|]. split; [done|]. split.
  - intros Hlen. destruct (Hsorted Hlen) as [Sb Sa]. split; [by apply Sa|done].
  - intros Hlen. unfold la', lb'. by rewrite (Hsame Hlen).
Qed.

End EqualKey_facts.

(** X5. [SilentPaymentShare.EqualKey] and [SilentPaymentDLEQ.EqualKey]
    never panic and return true exactly when the two values have the same
    scan key and the same outpoints in any order. The call changes nothing
    but the order of the outpoints of the two values: when the scan keys
    are equal and the numbers of outpoints are equal, both values are left
    with their outpoints sorted; otherwise they are unchanged. *)
Theorem EqualKey_compares_and_sorts {SS : GoSortSlice} :
  (∀ s other : SilentPaymentShare,
     let s' := fst (fst (SilentPaymentShare_EqualKey s other)) in
     let other' := snd (fst (SilentPaymentShare_EqualKey s other)) in
     (∃ r, snd (SilentPaymentShare_EqualKey s other) = Ret r ∧
           (r = true ↔ share_ScanKey s = share_ScanKey other ∧
                       share_OutPoints s ≡ₚ share_OutPoints other)) ∧
     share_ScanKey s' = share_ScanKey s ∧ share_Share s' = share_Share s ∧
     share_ScanKey other' = share_ScanKey other ∧
     share_Share other' = share_Share other ∧
     share_OutPoints s' ≡ₚ share_OutPoints s ∧
     share_OutPoints other' ≡ₚ share_OutPoints other ∧
     (share_ScanKey s = share_ScanKey other →
      length (share_OutPoints s) = length (share_OutPoints other) →
      outPointsSorted (share_OutPoints s') = true ∧
      outPointsSorted (share_OutPoints other') = true) ∧
     (share_ScanKey s ≠ share_ScanKey other ∨
      length (share_OutPoints s) ≠ length (share_OutPoints other) →
      s' = s ∧ other' = other)) ∧
  (∀ d other : SilentPaymentDLEQ,
     let d' := fst (fst (SilentPaymentDLEQ_EqualKey d other)) in
     let other' := snd (fst (SilentPaymentDLEQ_EqualKey d other)) in
     (∃ r, snd (SilentPaymentDLEQ_EqualKey d other) = Ret r ∧
           (r = true ↔ dleq_ScanKey d = dleq_ScanKey other ∧
                       dleq_OutPoints d ≡ₚ dleq_OutPoints other)) ∧
     dleq_ScanKey d' = dleq_ScanKey d ∧ dleq_Proof d' = dleq_Proof d ∧
     dleq_ScanKey other' = dleq_ScanKey other ∧
     dleq_Proof other' = dleq_Proof other ∧
     dleq_OutPoints d' ≡ₚ dleq_OutPoints d ∧
     dleq_OutPoints other' ≡ₚ dleq_OutPoints other ∧
     (dleq_ScanKey d = dleq_ScanKey other →
      length (dleq_OutPoints d) = length (dleq_OutPoints other) →
      outPointsSorted (dleq_OutPoints d') = true ∧
      outPointsSorted (dleq_OutPoints other') = true) ∧
     (dleq_ScanKey d ≠ dleq_ScanKey other ∨
      length (dleq_OutPoints d) ≠ length (dleq_OutPoints other) →
      d' = d ∧ other' = other)).
Proof.
  split.
  - intros s other s' other'. subst s' other'.
    unfold SilentPaymentShare_EqualKey.
    destruct (bytes_Equal (share_ScanKey s) (share_ScanKey other)) eqn:E;
      simpl.
    + apply bytes_Equal_true in E.
      pose proof (EqualKey_outPoints (share_OutPoints s)
                    (share_OutPoints other)) as H.
      cbv zeta in H.
      destruct (equalOutPoints _ _ _) as [h' r0].
      simpl in *. destruct H as ((r & -> & Hiff) & Pa & Pb & Hs & Hn).
      split; [exists r; split; [done|]; rewrite Hiff; tauto|].
      repeat (split; [first [done|intros _ Hlen; by apply Hs]|]).
      intros [?|Hlen]; [done|].
      destruct (Hn Hlen) as [-> ->]. by destruct s, other.
    + assert (share_ScanKey s ≠ share_ScanKey other) as Hne.
      { intros Heq. apply bytes_Equal_true in Heq. congruence. }
      split; [exists false; split; [done|]; split; [done|tauto]|].
      repeat (split; [done|]). done.
  - intros d other d' other'. subst d' other'.
    unfold SilentPaymentDLEQ_EqualKey.
    destruct (bytes_Equal (dleq_ScanKey d) (dleq_ScanKey other)) eqn:E;
      simpl.
    + apply bytes_Equal_true in E.
      pose proof (EqualKey_outPoints (dleq_OutPoints d)
                    (dleq_OutPoints other)) as H.
      cbv zeta in H.
      destruct (equalOutPoints _ _ _) as [h' r0].
      simpl in *. destruct H as ((r & -> & Hiff) & Pa & Pb & Hs & Hn).
      split; [exists r; split; [done|]; rewrite Hiff; tauto|].
      repeat (split; [first [done|intros _ Hlen; by apply Hs]|]).
      intros [?|Hlen]; [done|].
      destruct (Hn Hlen) as [-> ->]. by destruct d, other.
    + assert (dleq_ScanKey d ≠ dleq_ScanKey other) as Hne.
      { intros Heq. apply bytes_Equal_true in Heq. congruence. }
      split; [exists false; split; [done|]; split; [done|tauto]|].
      repeat (split; [done|]). done.
Qed.

(** ** keys.go *)

Section options_facts.
Context {B : Btcec} {GS : GoSort}.

Lemma sort_start (h : heap) (keys : slice) (sort : bool) :
  (if sort then sortKeys h keys else (h, keys))
  = (heap_after_sort h keys sort, keys).
Proof. destruct sort; simpl; [by rewrite <- sortKeys_eq|done]. Qed.

Lemma elems_after_sort_length (ks : list PublicKey) sort :
  length (elems_after_sort ks sort) = length ks.
Proof.
  destruct sort; simpl; [|done].
  apply Permutation_length, sorted_elems_perm.
Qed.

Lemma elems_after_sort_twice (ks : list PublicKey) sort :
  elems_after_sort (elems_after_sort ks sort) sort = elems_after_sort ks sort.
Proof.
  destruct sort; simpl; [|done].
  apply sorted_elems_of_sorted, sorted_elems_sorted.
Qed.

(** [AggregateKeys] with the two options in terms of its loop. *)
Lemma AggregateKeys_options h keys sort (kh : option (list byte))
    (idx : option Z) :
  let ks := elems_after_sort (elems h keys) sort in
  let opts := {| keyHash := kh; uniqueKeyIndex := idx |} in
  ∀ keyOpts,
    foldl (λ o option, option o) defaultKeyAggOptions keyOpts = opts →
    AggregateKeys h keys sort keyOpts =
    (heap_after_sort h keys sort,
     match aggregateLoop ks (default (fingerprint ks) kh)
             (default (secondUniqueKeyIndex ks) idx) JacobianZero ks with
     | Panic => Panic
     | Ret finalKeyJ => Ret (finalKey finalKeyJ)
     end).
Proof.
  intros ks opts keyOpts Hopts. unfold AggregateKeys. rewrite Hopts, sort_start.
  unfold opts. cbn [keyHash uniqueKeyIndex].
  destruct kh as [kh|]; cbn [default].
  - rewrite elems_heap_after_sort. fold ks.
    by destruct idx, (aggregateLoop _ _ _ _ _).
  - rewrite keyHashFingerprint_eq, heap_after_sort_twice.
    rewrite !elems_heap_after_sort, elems_after_sort_twice. fold ks.
    by destruct idx, (aggregateLoop _ _ _ _ _).
Qed.

Lemma index_Panic {A} (s : list A) (i : Z) :
  index s i = Panic ↔ ¬ (0 ≤ i < Z.of_nat (length s)).
Proof.
  unfold index. case_bool_decide as Hi.
  - destruct (s !! Z.to_nat i) eqn:E.
    + apply lookup_lt_Some in E. split; [done|lia].
    + apply lookup_ge_None in E. split; [lia|done].
  - split; [lia|done].
Qed.

Lemma aggregationCoefficient_Panic keys target keysHash idx :
  aggregationCoefficient keys target keysHash idx = Panic
  ↔ idx ≠ -1 ∧ ¬ (0 ≤ idx < Z.of_nat (length keys)).
Proof.
  unfold aggregationCoefficient. rewrite <- index_Panic.
  case_bool_decide as Hidx.
  - destruct (index keys idx) as [k|]; [|tauto].
    destruct (keyBytesEqual k target); split; try done; by intros [_ ?].
  - split; [done|]. by intros [? _].
Qed.

Lemma aggregateLoop_Panic keys keysHash idx acc todo :
  aggregateLoop keys keysHash idx acc todo = Panic
  ↔ todo ≠ [] ∧ idx ≠ -1 ∧ ¬ (0 ≤ idx < Z.of_nat (length keys)).
Proof.
  revert acc. induction todo as [|key todo IH]; intros acc; simpl.
  { split; [done|]. by intros [? _]. }
  destruct (aggregationCoefficient keys key keysHash idx) as [a|] eqn:E.
  - rewrite IH. split; [intros (_ & ? & ?); by split|].
    intros (_ & H1 & H2).
    assert (aggregationCoefficient keys key keysHash idx = Panic) as E'
      by by apply aggregationCoefficient_Panic.
    congruence.
  - apply aggregationCoefficient_Panic in E. split; [by intros _; split|done].
Qed.

End options_facts.

(** X6. Let the fingerprint be what [keyHashFingerprint(keys, sort)]
    returns, and the index the second unique key index of the slice as that
    call leaves it (sorted in place when [sort] is true). Giving
    [AggregateKeys] the two ([WithKeysHash], [WithUniqueKeyIndex], in either
    order) changes neither the key it returns nor the state it leaves the
    slice in, and it is all one whether [AggregateKeys] is called on the
    slice as it was before the fingerprint was taken or as that call left
    it. Nothing is said of an index taken from the slice before it was
    sorted. *)
Theorem AggregateKeys_precomputed_options
    {B : Btcec} {GS : GoSort} (h : heap) (keys : slice) (sort : bool) :
  let h1 := fst (keyHashFingerprint h keys sort) in
  let kh := snd (keyHashFingerprint h keys sort) in
  let idx := secondUniqueKeyIndex (elems h1 keys) in
  AggregateKeys h keys sort [WithKeysHash (Some kh); WithUniqueKeyIndex idx]
  = AggregateKeys h keys sort [] ∧
  AggregateKeys h1 keys sort [WithKeysHash (Some kh); WithUniqueKeyIndex idx]
  = AggregateKeys h keys sort [] ∧
  AggregateKeys h keys sort [WithUniqueKeyIndex idx; WithKeysHash (Some kh)]
  = AggregateKeys h keys sort [].
Proof.
  intros h1 kh idx.
  assert (h1 = heap_after_sort h keys sort) as Eh1
    by (unfold h1; by rewrite keyHashFingerprint_eq).
  assert (kh = fingerprint (elems_after_sort (elems h keys) sort)) as Ekh
    by (unfold kh; by rewrite keyHashFingerprint_eq).
  assert (idx = secondUniqueKeyIndex (elems_after_sort (elems h keys) sort))
    as Eidx by (unfold idx; by rewrite Eh1, elems_heap_after_sort).
  clearbody h1 kh idx. subst.
  set (ks := elems_after_sort (elems h keys) sort).
  pose proof (AggregateKeys_options h keys sort (Some (fingerprint ks))
                (Some (secondUniqueKeyIndex ks))) as Hopt.
  pose proof (AggregateKeys_options (heap_after_sort h keys sort) keys sort
                (Some (fingerprint ks)) (Some (secondUniqueKeyIndex ks)))
    as Hopt1.
  pose proof (AggregateKeys_options h keys sort None None) as Hdef.
  cbv zeta in Hopt, Hopt1, Hdef. fold ks in Hopt, Hdef.
  rewrite elems_heap_after_sort, elems_after_sort_twice in Hopt1.
  rewrite heap_after_sort_twice in Hopt1. fold ks in Hopt1.
  rewrite (Hdef (@nil KeyAggOption) eq_refl). cbn [default].
  split; [by apply Hopt|]. split; [by apply Hopt1|by apply Hopt].
Qed.

(** X18. The index given with [WithUniqueKeyIndex] is read against the
    slice as [AggregateKeys] has sorted it, so an index taken from the slice
    before it was sorted can lead to another key. In the integer model, for
    the keys 5, 3, 3 and [sort = true]: the second unique key index of the
    slice as given is 1, that of the sorted slice 3, 3, 5 is 2; with the
    fingerprint and the index 2 [AggregateKeys] returns the key it returns
    without options, with the fingerprint and the index 1 a different
    one. *)
Theorem AggregateKeys_index_of_unsorted_slice :
  let h : @heap Zmodel.curve := {[ 1%positive := [5; 3; 3] ]} in
  let keys : slice := 1%positive in
  let aggregate := @AggregateKeys Zmodel.curve Zmodel.sorter h keys true in
  let h1 := fst (@keyHashFingerprint Zmodel.curve Zmodel.sorter h keys true) in
  let kh := snd (@keyHashFingerprint Zmodel.curve Zmodel.sorter h keys true) in
  @secondUniqueKeyIndex Zmodel.curve (elems h keys) = 1 ∧
  elems h1 keys = [3; 3; 5] ∧
  @secondUniqueKeyIndex Zmodel.curve (elems h1 keys) = 2 ∧
  snd (aggregate [WithKeysHash (Some kh); WithUniqueKeyIndex 2])
  = snd (aggregate []) ∧
  snd (aggregate [WithKeysHash (Some kh); WithUniqueKeyIndex 1])
  ≠ snd (aggregate []).
Proof. repeat split. vm_compute. discriminate. Qed.

(** X7. With a second unique key index supplied by the caller
    ([WithUniqueKeyIndex]), [AggregateKeys] panics exactly when the key
    list is not empty and the index is neither -1 nor an index of the list
    (the coefficient of the first key indexes the list with it); in every
    other case it returns a key. The slice is sorted all the same. *)
Theorem AggregateKeys_unique_index_out_of_range
    {B : Btcec} {GS : GoSort} (h : heap) (keys : slice) (sort : bool)
    (idx : Z) :
  (snd (AggregateKeys h keys sort [WithUniqueKeyIndex idx]) = Panic
   ↔ elems h keys ≠ [] ∧ idx ≠ -1 ∧
     ¬ (0 ≤ idx < Z.of_nat (length (elems h keys)))) ∧
  (snd (AggregateKeys h keys sort [WithUniqueKeyIndex idx]) ≠ Panic →
   returns (snd (AggregateKeys h keys sort [WithUniqueKeyIndex idx]))) ∧
  fst (AggregateKeys h keys sort [WithUniqueKeyIndex idx])
  = fst (AggregateKeys h keys sort []).
Proof.
  pose proof (AggregateKeys_options h keys sort None (Some idx)) as Hopt.
  pose proof (AggregateKeys_options h keys sort None None) as Hdef.
  cbv zeta in Hopt, Hdef.
  rewrite (Hopt [WithUniqueKeyIndex idx] eq_refl).
  rewrite (Hdef (@nil KeyAggOption) eq_refl).
  cbn [default from_option fst snd]. unfold id.
  set (ks := elems_after_sort (elems h keys) sort).
  assert (ks ≠ [] ↔ elems h keys ≠ []) as Hnil.
  { pose proof (elems_after_sort_length (elems h keys) sort) as Hl.
    fold ks in Hl. destruct ks, (elems h keys); simpl in Hl; try done. }
  destruct (aggregateLoop ks (fingerprint ks) idx JacobianZero ks) eqn:E.
  - split; [|split; [by eexists|done]]. split; [done|].
    intros (H1 & H2 & H3).
    assert (aggregateLoop ks (fingerprint ks) idx JacobianZero ks = Panic)
      as E'.
    { apply aggregateLoop_Panic. rewrite Hnil.
      unfold ks at 1. by rewrite elems_after_sort_length. }
    congruence.
  - split; [|split; [done|done]]. split; [|done]. intros _.
    apply aggregateLoop_Panic in E. rewrite Hnil in E.
    unfold ks in E at 1. by rewrite elems_after_sort_length in E.
Qed.

(** X8. With [sort = true], [keyHashFingerprint] returns the same
    fingerprint for a key list and for every permutation of it; without
    sorting it is the tagged hash of the serializations in the order given
    and the slice is not touched. *)
Theorem keyHashFingerprint_sorted_permutation_invariant
    {B : Btcec} {GS : GoSort} (h h' : heap) (keys keys' : slice) :
  elems h keys ≡ₚ elems h' keys' →
  snd (keyHashFingerprint h keys true)
  = snd (keyHashFingerprint h' keys' true) ∧
  keyHashFingerprint h keys false
  = (h, TaggedHash KeyAggTagList
          (concat (SerializePubKey <$> elems h keys))).
Proof.
  intros P. rewrite !keyHashFingerprint_eq. simpl. split; [|done].
  do 2 f_equal. apply sorted_serializations_unique;
    [apply sorted_elems_sorted..|].
  by rewrite !sorted_elems_perm.
Qed.

Lemma keyHashFingerprint_sorted_permutation_invariant_witness :
  snd (@keyHashFingerprint Zmodel.curve Zmodel.sorter
         {[ 1%positive := [3; -5; 2] ]} 1%positive true)
  = snd (@keyHashFingerprint Zmodel.curve Zmodel.sorter
           {[ 2%positive := [2; 3; -5] ]} 2%positive true).
Proof.
  refine (proj1 (@keyHashFingerprint_sorted_permutation_invariant
                   Zmodel.curve Zmodel.sorter
                   {[ 1%positive := [3; -5; 2] ]}
                   {[ 2%positive := [2; 3; -5] ]} 1%positive 2%positive _)).
  change ([3; -5; 2] ≡ₚ [2; 3; -5]).
  symmetry. apply (Permutation_cons_append [3; -5] 2).
Defined.

(** X9. The index [secondUniqueKeyIndex] returns is never 0: it is -1 or
    an index of the list from 1 on, and -1 for a list of fewer than two
    keys. So the first key of the list, and every key with its
    serialization, is never given the coefficient 1 by the shortcut: its
    coefficient is the tagged-hash coefficient. *)
Theorem secondUniqueKeyIndex_never_first
    {B : Btcec} (keys : list PublicKey) (keysHash : list byte) :
  let idx := secondUniqueKeyIndex keys in
  (idx = -1 ∨ 1 ≤ idx < Z.of_nat (length keys)) ∧
  ((length keys < 2)%nat → idx = -1) ∧
  (∀ first target,
     head keys = Some first →
     SerializePubKey target = SerializePubKey first →
     aggregationCoefficient keys target keysHash idx
     = Ret (hashCoefficient target keysHash)).
Proof.
  cbv zeta.
  assert (secondUniqueKeyIndex keys ≠ 0) as Hnz.
  { destruct (secondUniqueKeyIndex_spec keys)
      as [[_ E]|(n & E & k0 & k & H0 & Hn & Hne & _)]; [lia|].
    intros Hz. assert (n = 0%nat) as -> by lia.
    destruct keys; simpl in *; congruence. }
  assert (secondUniqueKeyIndex keys = -1 ∨
          1 ≤ secondUniqueKeyIndex keys < Z.of_nat (length keys)) as Hrange.
  { destruct (secondUniqueKeyIndex_range keys) as [?|?];
      [by left|right; lia]. }
  split; [done|]. split; [lia|].
  intros first target Hhead Hser.
  rewrite aggregationCoefficient_coefficient. f_equal.
  unfold coefficient, secondUniqueKey.
  case_bool_decide as Hidx; [|done].
  destruct (secondUniqueKeyIndex_spec keys)
    as [[_ E]|(n & E & k0 & k & H0 & Hn & Hne & _)]; [done|].
  rewrite E, Nat2Z.id, Hn.
  rewrite (keyBytesEqual_bytes k k target first eq_refl Hser).
  replace first with k0 by congruence.
  by rewrite (proj2 (keyBytesEqual_false k k0) Hne).
Qed.

(** ** context.go: sessions over sequences of calls *)

Section session_sequences.
Context {B : Btcec} {L : Musig2Lib B}.
Variable h : heap.

Ltac method_cases :=
  unfold after, PublicNonce, NumRegisteredNonces, RegisterPubNonce,
    SessionSign, CombineSig, FinalSig;
  simpl;
  repeat (case_bool_decide || case_match);
  unfold numSigners in *; simpl in *.

(** A session whose nonce list is full while the combined nonce is missing
    stays so. *)
Lemma after_stuck s c :
  length (pubNonces s) = numSigners h s → combinedNonce s = None →
  is_Some (localNonces s) →
  length (pubNonces (after h s c)) = numSigners h (after h s c) ∧
  combinedNonce (after h s c) = None ∧ is_Some (localNonces (after h s c)).
Proof.
  intros H1 H2 H3. unfold numSigners in *.
  destruct c; method_cases; simplify_eq; try done; by destruct H3.
Qed.

Lemma run_stuck s calls :
  length (pubNonces s) = numSigners h s → combinedNonce s = None →
  is_Some (localNonces s) →
  combinedNonce (run h s calls) = None ∧ is_Some (localNonces (run h s calls)).
Proof.
  revert s. induction calls as [|c calls IH]; intros s H1 H2 H3; simpl;
    [done|].
  destruct (after_stuck s c H1 H2 H3) as (? & ? & ?). by apply IH.
Qed.

Lemma sign_without_combined_nonce s m signOpts :
  combinedNonce s = None → is_Some (localNonces s) →
  snd (SessionSign h s m signOpts) = Ret (Err ErrCombinedNonceUnavailable).
Proof.
  intros H1 [n H2]. unfold SessionSign. simpl. by rewrite H2, H1.
Qed.

(** The registered nonces: at least the local one, which stays first, and
    never more than there are signers. *)
Lemma after_nonce_count s c first :
  (1 ≤ length (pubNonces s) ≤ numSigners h s)%nat →
  head (pubNonces s) = Some first →
  (1 ≤ length (pubNonces (after h s c)) ≤ numSigners h (after h s c))%nat ∧
  head (pubNonces (after h s c)) = Some first.
Proof.
  intros H1 H2. unfold numSigners in *.
  destruct c; method_cases; simplify_eq; try done;
    rewrite ?length_app in *; simpl in *;
    (split; [lia|]); by destruct (pubNonces s).
Qed.

(** The local partial signature and the final signature are only present
    once the local nonce is consumed, and the final signature only once all
    signatures are in. *)
Definition signed_inv (s : Session) : Prop :=
  (is_Some (ourSig s) → localNonces s = None) ∧
  (is_Some (finalSig s) →
   localNonces s = None ∧ length (sigs s) = numSigners h s).

Lemma NewSession_signed_inv c gen s : NewSession c gen = Ok s → signed_inv s.
Proof.
  unfold NewSession. destruct gen; [|done]. intros [= <-].
  split; simpl; by intros [? ?].
Qed.

Lemma after_signed_inv s c : signed_inv s → signed_inv (after h s c).
Proof.
  intros [H1 H2]. unfold signed_inv, numSigners in *.
  destruct c; method_cases; split; simpl; intros; simplify_eq;
    try done;
    try (match goal with H : is_Some None |- _ => by destruct H end);
    try (match goal with
         | Hs : is_Some (ourSig _) |- _ => by specialize (H1 Hs)
         | Hs : is_Some (finalSig _) |- _ => by destruct (H2 Hs)
         end);
    try (by apply H1; eauto);
    try (split; [by apply H1; eauto|done]);
    match goal with
    | Hn : ?x = None, Hs : is_Some ?x |- _ =>
        rewrite Hn in Hs; by destruct Hs
    end.
Qed.

Lemma run_signed_inv s calls : signed_inv s → signed_inv (run h s calls).
Proof.
  revert s. induction calls as [|c calls IH]; intros s H; simpl; [done|].
  by apply IH, after_signed_inv.
Qed.

(** Once the nonce is consumed and all signatures are in, no call changes
    the signatures or the final signature. *)
Lemma after_complete s c :
  localNonces s = None → length (sigs s) = numSigners h s →
  localNonces (after h s c) = None ∧ sigs (after h s c) = sigs s ∧
  finalSig (after h s c) = finalSig s.
Proof.
  intros H1 H2. unfold numSigners in *.
  destruct c; method_cases; simplify_eq; done.
Qed.

Lemma run_complete s calls :
  localNonces s = None → length (sigs s) = numSigners h s →
  sigs (run h s calls) = sigs s ∧ finalSig (run h s calls) = finalSig s.
Proof.
  revert s. induction calls as [|c calls IH]; intros s H1 H2; simpl; [done|].
  destruct (after_complete s c H1 H2) as (Hn & Hs & Hf).
  destruct (IH (after h s c)) as [Hs' Hf'].
  - done.
  - by rewrite Hs, after_numSigners.
  - by rewrite Hs', Hf', Hs, Hf.
Qed.

(** Once the signature count has reached the signer count with no final
    signature stored, none is ever stored. *)
Lemma after_no_final s c :
  (numSigners h s ≤ length (sigs s))%nat → finalSig s = None →
  (numSigners h (after h s c) ≤ length (sigs (after h s c)))%nat ∧
  finalSig (after h s c) = None.
Proof.
  intros H1 H2. unfold numSigners in *.
  destruct c; method_cases; simplify_eq; try done;
    rewrite ?length_app in *; simpl in *; try (split; [lia|done]); lia.
Qed.

Lemma run_no_final s calls :
  (numSigners h s ≤ length (sigs s))%nat → finalSig s = None →
  finalSig (run h s calls) = None.
Proof.
  revert s. induction calls as [|c calls IH]; intros s H1 H2; simpl; [done|].
  destruct (after_no_final s c H1 H2). by apply IH.
Qed.

Lemma set_pubNonces_same s : set_pubNonces (pubNonces s) s = s.
Proof. by destruct s. Qed.

(** Registering nonces that do not complete the set only appends them. *)
Lemma run_register_incomplete ns s :
  (length (pubNonces s) + length ns < numSigners h s)%nat →
  run h s (CallRegisterPubNonce <$> ns) = set_pubNonces (pubNonces s ++ ns) s.
Proof.
  revert s. induction ns as [|n ns IH]; intros s Hlen; simpl.
  - by rewrite app_nil_r, set_pubNonces_same.
  - simpl in Hlen. unfold RegisterPubNonce.
    rewrite bool_decide_eq_false_2 by lia.
    rewrite bool_decide_eq_false_2.
    + simpl. rewrite IH.
      * simpl. by rewrite <- app_assoc.
      * simpl. rewrite length_app. simpl.
        change (numSigners h (set_pubNonces (pubNonces s ++ [n]) s))
          with (numSigners h s). lia.
    + simpl. rewrite length_app. simpl.
      change (numSigners h (set_pubNonces (pubNonces s ++ [n]) s))
        with (numSigners h s). lia.
Qed.

End session_sequences.

Section session_sequences_run.
Context {B : Btcec} {L : Musig2Lib B}.
Variable h : heap.

Lemma run_numSigners s calls : numSigners h (run h s calls) = numSigners h s.
Proof.
  revert s. induction calls as [|c calls IH]; intros s; simpl; [done|].
  by rewrite IH, after_numSigners.
Qed.

Lemma run_nonce_count s calls first :
  (1 ≤ length (pubNonces s) ≤ numSigners h s)%nat →
  head (pubNonces s) = Some first →
  (1 ≤ length (pubNonces (run h s calls)) ≤ numSigners h s)%nat ∧
  head (pubNonces (run h s calls)) = Some first.
Proof.
  revert s. induction calls as [|c calls IH]; intros s H1 H2; simpl; [done|].
  destruct (after_nonce_count h s c first H1 H2) as [H1' H2'].
  destruct (IH _ H1' H2') as [H3 H4]. by rewrite after_numSigners in H3.
Qed.

Lemma run_app s calls calls' :
  run h s (calls ++ calls') = run h (run h s calls) calls'.
Proof. apply foldl_app. Qed.

(** [CombineSig] on the call that brings the count to the signer count. *)
Lemma CombineSig_combining s sig our :
  ourSig s = Some our → S (length (sigs s)) = numSigners h s →
  snd (CombineSig h s sig) =
    if Verify (CombineSigs (sig_R our) (sigs s ++ [sig]) (combineOptions h s))
         (msg s) (combinedKey (ctx s))
    then Ret (true, None)
    else Ret (false, Some ErrFinalSigInvalid).
Proof.
  intros Hour Hlen. unfold CombineSig.
  rewrite bool_decide_eq_false_2 by lia.
  assert (length (sigs (set_sigs (sigs s ++ [sig]) s))
          = numSigners h (set_sigs (sigs s ++ [sig]) s)) as E.
  { simpl. rewrite length_app. simpl. unfold numSigners in *. simpl. lia. }
  rewrite (bool_decide_eq_true_2 _ E).
  change (ourSig (set_sigs (sigs s ++ [sig]) s)) with (ourSig s).
  rewrite Hour.
  change (CombineSigs _ _ _)
    with (CombineSigs (sig_R our) (sigs s ++ [sig]) (combineOptions h s)).
  change (msg (set_sigs (sigs s ++ [sig]) s)) with (msg s).
  change (ctx (set_sigs (sigs s ++ [sig]) s)) with (ctx s).
  by destruct (Verify _ _ _).
Qed.

End session_sequences_run.

(** X10. A session whose nonce list is full while the combined nonce was
    never computed can never sign. This is so for every session of a
    context with a single signer (the local nonce alone fills the list, and
    [RegisterPubNonce] then never aggregates), and after [AggregateNonces]
    has failed in [RegisterPubNonce]: whatever calls follow, [Sign] returns
    [ErrCombinedNonceUnavailable]. *)
Theorem Sign_never_succeeds_without_aggregation
    {B : Btcec} {L : Musig2Lib B} (h : heap) :
  (∀ c gen s0 calls m signOpts,
     NewSession c gen = Ok s0 → numSigners h s0 = 1%nat →
     snd (SessionSign h (run h s0 calls) m signOpts)
     = Ret (Err ErrCombinedNonceUnavailable)) ∧
  (∀ c gen s0 calls0 nonce err s' calls m signOpts,
     NewSession c gen = Ok s0 →
     RegisterPubNonce h (run h s0 calls0) nonce
     = (s', Ret (false, Some err)) →
     snd (SessionSign h (run h s' calls) m signOpts)
     = Ret (Err ErrCombinedNonceUnavailable)).
Proof.
  split.
  - intros c gen s0 calls m signOpts Hnew Hone.
    assert (length (pubNonces s0) = numSigners h s0 ∧
            combinedNonce s0 = None ∧ is_Some (localNonces s0))
      as (H1 & H2 & H3).
    { unfold NewSession in Hnew. destruct gen; [|done].
      injection Hnew as <-. rewrite Hone. simpl. eauto. }
    destruct (run_stuck h s0 calls H1 H2 H3).
    by apply sign_without_combined_nonce.
  - intros c gen s0 calls0 nonce err s' calls m signOpts Hnew Hreg.
    pose proof (run_inv h s0 calls0 (NewSession_inv h c gen s0 Hnew))
      as [Hi1 Hi2].
    set (s := run h s0 calls0) in *.
    assert (length (pubNonces s') = numSigners h s' ∧
            combinedNonce s' = None ∧ is_Some (localNonces s'))
      as (H1 & H2 & H3).
    { unfold RegisterPubNonce in Hreg.
      case_bool_decide as Hfull; [done|].
      case_bool_decide as Hnow; [|done].
      destruct (AggregateNonces _); [done|]. injection Hreg as <- _.
      split; [done|]. simpl.
      destruct (combinedNonce s) eqn:Ec.
      { exfalso. apply Hfull, Hi2. eauto. }
      split; [done|]. destruct (localNonces s); [eauto|].
      destruct (Hi1 eq_refl) as [? ?]. done. }
    destruct (run_stuck h s' calls H1 H2 H3).
    by apply sign_without_combined_nonce.
Qed.

Lemma Sign_never_succeeds_without_aggregation_witness :
  snd (@SessionSign Zmodel.curve Zmodel.lib Zsessions.heap1
         (@run Zmodel.curve Zmodel.lib Zsessions.heap1 Zsessions.fresh1
            [CallRegisterPubNonce [Byte.x09]; CallFinalSig])
         Zsessions.message [])
  = Ret (Err ErrCombinedNonceUnavailable).
Proof.
  exact (proj1 (@Sign_never_succeeds_without_aggregation
                  Zmodel.curve Zmodel.lib Zsessions.heap1)
           Zsessions.ctx1 (Ok Zsessions.nonces) Zsessions.fresh1
           [CallRegisterPubNonce [Byte.x09]; CallFinalSig]
           Zsessions.message [] eq_refl eq_refl).
Defined.

(** X11. On a session made by [NewSession] for a context with at least one
    signer, after any calls: the number of registered nonces is at least 1
    and at most the number of signers, and the first registered nonce is
    the local public nonce. *)
Theorem registered_nonces_bounded
    {B : Btcec} {L : Musig2Lib B}
    (h : heap) (c : Context) (nonces : Nonces) (s0 : Session)
    (calls : list call) :
  NewSession c (Ok nonces) = Ok s0 →
  (1 ≤ numSigners h s0)%nat →
  let s := run h s0 calls in
  (1 ≤ length (pubNonces s) ≤ numSigners h s)%nat ∧
  head (pubNonces s) = Some (PubNonce nonces) ∧
  snd (NumRegisteredNonces s) = Ret (length (pubNonces s)).
Proof.
  intros Hnew Hn s.
  injection Hnew as Hs0. symmetry in Hs0.
  assert (1 ≤ length (pubNonces s0) ≤ numSigners h s0)%nat as Hcount.
  { subst s0. unfold numSigners in *. simpl in *. lia. }
  assert (head (pubNonces s0) = Some (PubNonce nonces)) as Hhead
    by by subst s0.
  destruct (run_nonce_count h s0 calls (PubNonce nonces) Hcount Hhead)
    as [H1 H2].
  unfold s. rewrite run_numSigners. by repeat split; try lia.
Qed.

Lemma registered_nonces_bounded_witness :
  (1 ≤ length (pubNonces
                 (@run Zmodel.curve Zmodel.lib Zsessions.heap2
                    Zsessions.fresh2
                    [CallRegisterPubNonce [Byte.x09];
                     CallRegisterPubNonce [Byte.x0a]])) ≤ 2)%nat.
Proof.
  pose proof (@registered_nonces_bounded Zmodel.curve Zmodel.lib
                Zsessions.heap2 Zsessions.ctx2 Zsessions.nonces
                Zsessions.fresh2
                [CallRegisterPubNonce [Byte.x09];
                 CallRegisterPubNonce [Byte.x0a]]
                eq_refl ltac:(vm_compute; lia)) as [H _].
  exact H.
Defined.

(** X12. On a session made by [NewSession], once a final signature is
    stored no later call replaces or removes it: after any further calls
    [FinalSig] returns it and [CombineSig] returns [ErrAlredyHaveAllSigs]
    without changing the session. *)
Theorem final_signature_is_never_replaced
    {B : Btcec} {L : Musig2Lib B}
    (h : heap) (c : Context) (gen : result Nonces) (s0 : Session)
    (calls calls' : list call) (final : Signature)
    (sig : PartialSignature) :
  NewSession c gen = Ok s0 →
  finalSig (run h s0 calls) = Some final →
  let s := run h s0 (calls ++ calls') in
  snd (FinalSig s) = Ret (Some final) ∧
  CombineSig h s sig = (s, Ret (false, Some ErrAlredyHaveAllSigs)).
Proof.
  intros Hnew Hfinal s.
  destruct (run_signed_inv h s0 calls (NewSession_signed_inv h c gen s0 Hnew))
    as [_ Hinv].
  destruct Hinv as [Hn Hlen]; [by rewrite Hfinal|].
  destruct (run_complete h _ calls' Hn Hlen) as [Hs Hf].
  unfold s. rewrite run_app. split.
  - simpl. by rewrite Hf, Hfinal.
  - unfold CombineSig. rewrite bool_decide_eq_true_2; [done|].
    by rewrite Hs, run_numSigners.
Qed.

Lemma final_signature_is_never_replaced_witness :
  snd (FinalSig
         (@run Zmodel.curve Zmodel.lib Zsessions.heap2 Zsessions.fresh2
            ([CallRegisterPubNonce [Byte.x09];
              CallSign Zsessions.message [];
              @CallCombineSig Zmodel.curve Zmodel.lib (651949, 9)]
             ++ [@CallCombineSig Zmodel.curve Zmodel.lib (5, 9);
                 CallSign [Byte.x05] []])))
  = Ret (Some (1801, 651962)).
Proof.
  exact (proj1 (@final_signature_is_never_replaced Zmodel.curve Zmodel.lib
                  Zsessions.heap2 Zsessions.ctx2 (Ok Zsessions.nonces)
                  Zsessions.fresh2
                  [CallRegisterPubNonce [Byte.x09];
                   CallSign Zsessions.message [];
                   @CallCombineSig Zmodel.curve Zmodel.lib (651949, 9)]
                  [@CallCombineSig Zmodel.curve Zmodel.lib (5, 9);
                   CallSign [Byte.x05] []]
                  (1801, 651962) (5, 9) eq_refl eq_refl)).
Defined.

(** X13. Once the signature count has reached the signer count with no
    final signature stored, no later call ever stores one. This is the
    state [CombineSig] leaves when it returns [ErrFinalSigInvalid], and the
    state [Sign] leaves when the local signature is the one that brings the
    count to the signer count ([Sign] appends without combining). *)
Theorem no_final_signature_once_count_reached
    {B : Btcec} {L : Musig2Lib B} (h : heap) :
  (∀ s calls,
     (numSigners h s ≤ length (sigs s))%nat → finalSig s = None →
     finalSig (run h s calls) = None) ∧
  (∀ s sig s' calls,
     finalSig s = None →
     CombineSig h s sig = (s', Ret (false, Some ErrFinalSigInvalid)) →
     finalSig (run h s' calls) = None) ∧
  (∀ s m signOpts s' sig calls,
     finalSig s = None → S (length (sigs s)) = numSigners h s →
     SessionSign h s m signOpts = (s', Ret (Ok sig)) →
     finalSig (run h s' calls) = None).
Proof.
  split; [apply run_no_final|]. split.
  - intros s sig s' calls Hnone Hc. apply run_no_final.
    + unfold CombineSig in Hc. unfold numSigners in *.
      repeat (case_bool_decide || case_match); simplify_eq; simpl in *; lia.
    + unfold CombineSig in Hc.
      repeat (case_bool_decide || case_match); simplify_eq; done.
  - intros s m signOpts s' sig calls Hnone Hlen Hs.
    unfold SessionSign in Hs. simpl in Hs.
    repeat case_match; simplify_eq;
      (apply run_no_final; simpl; [|done]);
      rewrite length_app; simpl; unfold numSigners in *; simpl; lia.
Qed.

Lemma no_final_signature_once_count_reached_witness :
  finalSig
    (@run Zmodel.curve Zmodel.lib Zsessions.heap2
       (fst (@CombineSig Zmodel.curve Zmodel.lib Zsessions.heap2
               Zsessions.signed2 (5, 9)))
       [@CallCombineSig Zmodel.curve Zmodel.lib (651949, 9); CallFinalSig])
  = None.
Proof.
  exact (proj1 (proj2 (@no_final_signature_once_count_reached
                         Zmodel.curve Zmodel.lib Zsessions.heap2))
           Zsessions.signed2 (5, 9)
           (fst (@CombineSig Zmodel.curve Zmodel.lib Zsessions.heap2
                   Zsessions.signed2 (5, 9)))
           [@CallCombineSig Zmodel.curve Zmodel.lib (651949, 9);
            CallFinalSig]
           eq_refl eq_refl).
Defined.

(** X14. Collecting the nonces of the other signers: on a session made by
    [NewSession] for [n] signers, [n >= 2], the first [n - 2] calls to
    [RegisterPubNonce] only append their nonce and leave the combined nonce
    unset; the next call appends the last nonce and aggregates the local
    nonce followed by all the nonces in the order registered: it stores the
    combined nonce and returns true, or returns the aggregation error with
    the nonce appended. *)
Theorem RegisterPubNonce_completes_nonce_set
    {B : Btcec} {L : Musig2Lib B}
    (h : heap) (c : Context) (gen : result Nonces) (s0 : Session)
    (ns : list (list byte)) (last : list byte) :
  NewSession c gen = Ok s0 →
  (length ns + 2 = numSigners h s0)%nat →
  let s := run h s0 (CallRegisterPubNonce <$> ns) in
  let all := pubNonces s0 ++ ns ++ [last] in
  s = set_pubNonces (pubNonces s0 ++ ns) s0 ∧
  combinedNonce s = None ∧
  RegisterPubNonce h s last =
    match AggregateNonces all with
    | Ok combined =>
        (set_combinedNonce (Some combined) (set_pubNonces all s),
         Ret (true, None))
    | Err err => (set_pubNonces all s, Ret (false, Some err))
    end.
Proof.
  intros Hnew Hlen s all.
  assert (length (pubNonces s0) = 1%nat ∧ combinedNonce s0 = None)
    as [Hone Hnone].
  { unfold NewSession in Hnew. destruct gen; [|done]. by injection Hnew as <-. }
  assert (s = set_pubNonces (pubNonces s0 ++ ns) s0) as Es.
  { unfold s. apply run_register_incomplete. lia. }
  split; [done|]. split; [by rewrite Es|].
  unfold RegisterPubNonce. rewrite Es. simpl.
  change (numSigners h (set_pubNonces (pubNonces s0 ++ ns) s0))
    with (numSigners h s0).
  rewrite bool_decide_eq_false_2 by (rewrite length_app; lia).
  change (numSigners h (set_pubNonces _ (set_pubNonces _ s0)))
    with (numSigners h s0).
  rewrite bool_decide_eq_true_2
    by (rewrite !length_app; simpl; lia).
  unfold all. rewrite <- !app_assoc.
  by destruct (AggregateNonces _).
Qed.

Lemma RegisterPubNonce_completes_nonce_set_witness :
  @RegisterPubNonce Zmodel.curve Zmodel.lib Zsessions.heap2
    Zsessions.fresh2 [Byte.x09]
  = (Zsessions.ready2, Ret (true, None)).
Proof.
  exact (proj2 (proj2 (@RegisterPubNonce_completes_nonce_set
                         Zmodel.curve Zmodel.lib Zsessions.heap2
                         Zsessions.ctx2 (Ok Zsessions.nonces)
                         Zsessions.fresh2 [] [Byte.x09] eq_refl eq_refl))).
Defined.

(** A partial signer that rejects every message, and a session of it that
    is ready to sign. *)
Module Zfailing.
Import Zmodel.

Definition sign (sec priv : Z) (combined : list byte) (ks : list Z)
    (m : list byte) (opts : list (list Z)) : result (Z * Z) :=
  Err (ErrOther "signing failed").

Definition lib : Musig2Lib curve :=
  @Build_Musig2Lib curve Z Z (Z * Z)%type (Z * Z)%type (list Z) (list Z)
    (λ sg : Z * Z, snd sg) aggregateNonces sign (λ tw, tw)
    (λ m ks tw sort, tw) combineSigs verify uniqueIndex aggregateTweaked.

Definition ready : @Session curve lib :=
  @Build_Session curve lib
    (@Build_Context curve lib 3 3 1%positive 362 1 [Byte.x9a] [] true)
    (Some (@Build_Nonces curve lib 7 [Byte.x07]))
    [[Byte.x07]; [Byte.x09]] (Some [Byte.x07; Byte.x09])
    (replicate 32 Byte.x00) None [] None.

End Zfailing.

(** X15. When [Sign] gets past its two checks and the partial signer
    returns an error, [Sign] returns that error having consumed the local
    nonce all the same: no partial signature is stored or appended, and
    every later [Sign] on the session returns [ErrSigningContextReuse]. *)
Theorem Sign_error_consumes_nonce
    {B : Btcec} {L : Musig2Lib B}
    (h : heap) (s : Session) (m : list byte) (signOpts : list SignOption)
    (err : error) :
  is_Some (localNonces s) → is_Some (combinedNonce s) →
  snd (SessionSign h s m signOpts) = Ret (Err err) →
  let s' := fst (SessionSign h s m signOpts) in
  localNonces s' = None ∧ ourSig s' = ourSig s ∧ sigs s' = sigs s ∧
  finalSig s' = finalSig s ∧
  ∀ calls m' signOpts',
    snd (SessionSign h (run h s' calls) m' signOpts')
    = Ret (Err ErrSigningContextReuse).
Proof.
  intros [n Hn] [cn Hcn] Herr s'.
  assert (localNonces s' = None ∧ ourSig s' = ourSig s ∧ sigs s' = sigs s
          ∧ finalSig s' = finalSig s) as (H1 & H2 & H3 & H4).
  { unfold s'. unfold SessionSign in *. simpl in *.
    rewrite Hn, Hcn in *. by destruct (Sign _ _ _ _ _ _). }
  repeat (split; [done|]).
  intros calls m' signOpts'. unfold SessionSign. simpl.
  by rewrite (run_localNonces_None h s' calls H1).
Qed.

Lemma Sign_error_consumes_nonce_witness :
  localNonces (fst (@SessionSign Zmodel.curve Zfailing.lib Zsessions.heap2
                      Zfailing.ready Zsessions.message [])) = None ∧
  snd (@SessionSign Zmodel.curve Zfailing.lib Zsessions.heap2
         (fst (@SessionSign Zmodel.curve Zfailing.lib Zsessions.heap2
                 Zfailing.ready Zsessions.message []))
         Zsessions.message [])
  = Ret (Err ErrSigningContextReuse).
Proof.
  pose proof (@Sign_error_consumes_nonce Zmodel.curve Zfailing.lib
                Zsessions.heap2 Zfailing.ready Zsessions.message []
                (ErrOther "signing failed")
                (ex_intro _ _ eq_refl) (ex_intro _ _ eq_refl) eq_refl) as H.
  cbv zeta in H. destruct H as (H1 & _ & _ & _ & H2).
  split; [exact H1|]. exact (H2 [] Zsessions.message []).
Defined.

(** X16. [Sign] records its message before it checks anything, so a call
    that fails with [ErrSigningContextReuse] still replaces the message of
    the session; the verification [CombineSig] makes when the last
    signature arrives is then against the message of that failed call, not
    the message that was signed. *)
Theorem CombineSig_verifies_message_of_last_Sign
    {B : Btcec} {L : Musig2Lib B}
    (h : heap) (s s1 : Session) (m m' : list byte)
    (signOpts signOpts' : list SignOption) (sig peer : PartialSignature) :
  SessionSign h s m signOpts = (s1, Ret (Ok sig)) →
  S (length (sigs s1)) = numSigners h s1 →
  let s2 := fst (SessionSign h s1 m' signOpts') in
  let final :=
    CombineSigs (sig_R sig) (sigs s1 ++ [peer]) (combineOptions h s2) in
  snd (SessionSign h s1 m' signOpts') = Ret (Err ErrSigningContextReuse) ∧
  msg s1 = m ∧ msg s2 = m' ∧
  snd (CombineSig h s2 peer) =
    if Verify final m' (combinedKey (ctx s1))
    then Ret (true, None)
    else Ret (false, Some ErrFinalSigInvalid).
Proof.
  intros Hsign Hlen s2 final.
  assert (localNonces s1 = None ∧ ourSig s1 = Some sig ∧ msg s1 = m)
    as (Hn & Ho & Hm).
  { unfold SessionSign in Hsign. simpl in Hsign.
    repeat case_match; simplify_eq; done. }
  assert (SessionSign h s1 m' signOpts'
          = (set_msg m' s1, Ret (Err ErrSigningContextReuse))) as E.
  { unfold SessionSign. simpl. by rewrite Hn. }
  unfold final, s2. rewrite E. simpl fst. simpl snd.
  split; [done|]. split; [done|]. split; [done|].
  by rewrite (CombineSig_combining h (set_msg m' s1) peer sig Ho Hlen).
Qed.

Lemma CombineSig_verifies_message_of_last_Sign_witness :
  msg (fst (@SessionSign Zmodel.curve Zmodel.lib Zsessions.heap2
              Zsessions.signed2 [Byte.x05] []))
  = [Byte.x05] ∧
  snd (@SessionSign Zmodel.curve Zmodel.lib Zsessions.heap2
         Zsessions.signed2 [Byte.x05] [])
  = Ret (Err ErrSigningContextReuse).
Proof.
  pose proof (@CombineSig_verifies_message_of_last_Sign
                Zmodel.curve Zmodel.lib Zsessions.heap2 Zsessions.ready2
                Zsessions.signed2 Zsessions.message [Byte.x05] [] []
                (13, 1801) (651949, 9) eq_refl eq_refl) as H.
  cbv zeta in H. destruct H as (H1 & _ & H2 & _).
  split; [exact H2|exact H1].
Defined.
